(** * relnote: merging release-note fragments

    A shallow embedding of [relnote/relnote.go] (package [relnote] of
    [golang.org/x/build]) and the properties of its merge, pruning and
    validation code.

    Conventions of the embedding.
    - Go [string]s are byte strings: [string] of the Standard Library, compared
      bytewise ([String.compare]).
    - Line numbers ([int] fields of [md.Position]) are [Z].  They count the
      lines of a document held in memory, so the 64-bit bound of [int] is
      never approached and the arithmetic is written without wrap-around.
    - Blocks are pointers in Go and [addLines] writes through them.  The
      parser [rsc.io/markdown] allocates every block once, and [Merge] builds
      its sequence from freshly parsed documents, so a sequence never holds
      one block twice: writing through the pointer of an element is modelled
      as replacing that element.
    - What lives outside the package (the Markdown parser, the [PrintText]
      method of inline nodes, [path.Dir], [strings.TrimSpace], the iteration
      order of a Go map, the file system) is a parameter of the development. *)

From Stdlib Require Import ZArith Lia Ascii.
From stdpp Require Import base list strings sorting gmap fin_maps.

Set Warnings "-register-all,-clear-no-such-hyp".

Local Open Scope Z_scope.

(** ** Package [strings] of the Go library, as far as the code uses it *)

Module strings.

(** [strings.HasPrefix(s, prefix)]. *)
Definition HasPrefix (s prefix : string) : bool := String.prefix prefix s.

(** [strings.HasSuffix(s, suffix)]:
    [len(s) >= len(suffix) && s[len(s)-len(suffix):] == suffix]. *)
Definition HasSuffix (s suffix : string) : bool :=
  let n := String.length s in
  let m := String.length suffix in
  (m <=? n)%nat && String.eqb (String.substring (n - m) m s) suffix.

(** [strings.Index(s, substr)]: the index of the first instance of
    [substr] in [s]; [None] stands for Go's -1. *)
Fixpoint Index (s substr : string) : option nat :=
  if String.prefix substr s then Some 0%nat
  else match s with
       | EmptyString => None
       | String _ s' => S <$> Index s' substr
       end.

(** [strings.Contains(s, substr)]: [Index(s, substr) >= 0]. *)
Definition Contains (s substr : string) : bool := bool_decide (is_Some (Index s substr)).

(** [strings.IndexByte] restricted to membership. *)
Fixpoint hasByte (c : ascii) (chars : string) : bool :=
  match chars with
  | EmptyString => false
  | String d chars' => Ascii.eqb c d || hasByte c chars'
  end.

(** [strings.ContainsAny(s, chars)].  The code calls it with ASCII [chars]
    only; a byte of a UTF-8 string equals an ASCII byte exactly when it is
    that character, so the search is bytewise. *)
Fixpoint ContainsAny (s chars : string) : bool :=
  match s with
  | EmptyString => false
  | String c s' => hasByte c chars || ContainsAny s' chars
  end.

(** [strings.Cut(s, sep)]: [before, after, found]. *)
Definition Cut (s sep : string) : string * string * bool :=
  match Index s sep with
  | Some i =>
      (String.substring 0 i s,
       String.substring (i + String.length sep) (String.length s - (i + String.length sep)) s,
       true)
  | None => (s, "", false)
  end.

(** [strings.Join(elems, sep)]. *)
Fixpoint Join (elems : list string) (sep : string) : string :=
  match elems with
  | [] => ""
  | [e] => e
  | e :: rest => e +:+ sep +:+ Join rest sep
  end.

End strings.

(** ** Package [md] ([rsc.io/markdown]): the document model *)

Module md.

(** [md.Position]. *)
Record Position := mkPosition { StartLine : Z; EndLine : Z }.

(** Inline nodes.  The package builds [Plain] and [Link] itself
    ([stdlibPackageHeading]); every other inline kind reaches it only
    through the parser and is observed only through [PrintText]. *)
Inductive Inline : Type :=
| Plain (Text : string)
| InlineLink (l : Link)
| InlineOther (src : string)
with Link : Type :=
| mkLink (Inner : list Inline) (URL : string) (Title : string).

Definition Inner (l : Link) : list Inline := let 'mkLink i _ _ := l in i.
Definition URL (l : Link) : string := let 'mkLink _ u _ := l in u.
Definition Title (l : Link) : string := let 'mkLink _ _ t := l in t.

(** [md.Text]: a run of inline nodes with its own position. *)
Record Text := mkText { TextPosition : Position; Inlines : list Inline }.

(** The block kinds the package handles (the cases of [text] and
    [position]).  Their [default] branches panic on any other dynamic type;
    on this type they are unreachable. *)
Inductive Block : Type :=
| Heading (pos : Position) (Level : Z) (Text : Text)
| TextBlock (t : Text)
| CodeBlock (pos : Position) (Text : list string)
| HTMLBlock (pos : Position) (Text : list string)
| List (pos : Position) (Items : list Block)
| Item (pos : Position) (Blocks : list Block)
| Empty (pos : Position)
| Paragraph (pos : Position) (Text : Text)
| Quote (pos : Position) (Blocks : list Block).

(** The method [Pos()] of the [md.Block] interface. *)
Definition Pos (b : Block) : Position :=
  match b with
  | Heading p _ _ | CodeBlock p _ | HTMLBlock p _ | List p _ | Item p _
  | Empty p | Paragraph p _ | Quote p _ => p
  | TextBlock t => TextPosition t
  end.

(** [md.Document]: the top-level blocks and the link-reference map
    ([map[string]*md.Link]; the parser stores no nil link). *)
Record Document := mkDocument { Blocks : list Block; Links : gmap string Link }.

End md.

Import md.

(** ** Helpers of [relnote.go] *)

(** [isHeading] *)
Definition isHeading (b : Block) : bool :=
  match b with Heading _ _ _ => true | _ => false end.

(** The type test of [Merge] for a pointer to [md.Empty]. *)
Definition isEmpty (b : Block) : bool :=
  match b with Empty _ => true | _ => false end.

(** [position]: in Go a pointer to the block's [Position]; here a getter
    (which is [md.Pos]) and the setter [setPosition]. *)
Definition position (b : Block) : Position := Pos b.

Definition setPosition (b : Block) (p : Position) : Block :=
  match b with
  | Heading _ lv t => Heading p lv t
  | TextBlock t => TextBlock (mkText p (Inlines t))
  | CodeBlock _ ls => CodeBlock p ls
  | HTMLBlock _ ls => HTMLBlock p ls
  | List _ items => List p items
  | Item _ bs => Item p bs
  | Empty _ => Empty p
  | Paragraph _ t => Paragraph p t
  | Quote _ bs => Quote p bs
  end.

(** [addLines]: [pos.StartLine += n; pos.EndLine += n] on the block's own
    position; the positions of nested blocks and texts are left alone. *)
Definition addLines (b : Block) (n : Z) : Block :=
  let pos := position b in
  setPosition b (mkPosition (StartLine pos + n) (EndLine pos + n)).

(** [lastBlock] on the block sequence of a document; [None] is the panic of
    the index expression on an empty slice. *)
Definition lastBlock (bs : list Block) : option Block := last bs.

(** ** [removeEmptySections] *)

(** The closure [rem] of [removeEmptySections], as a function of the two
    variables it captures.  [res] is the slice under construction held as a
    stack: the head of the list is [res[len(res)-1]]. *)
Fixpoint rem (level : Z) (res : list Block) (delta : Z) : list Block * Z :=
  match res with
  | Heading pos lv _ :: res' =>
      if (level <=? lv)%Z
      then rem level res' (delta + (EndLine pos - StartLine pos + 2))
      else (res, delta)
  | _ => (res, delta)
  end.

(** One iteration of [for _, b := range bs]. *)
Definition pruneStep (st : list Block * Z) (b : Block) : list Block * Z :=
  let st' :=
    match b with
    | Heading _ lv _ => rem lv (fst st) (snd st)
    | _ => st
    end in
  (addLines b (- snd st') :: fst st', snd st').

(** [removeEmptySections].  In Go [res] is [bs[:0]] and shares the array of
    [bs]; iteration [i] reads [bs[i]] before it appends, and [res] is never
    longer than [i] when it does, so no element is overwritten before it is
    read and [res] can be held apart from [bs]. *)
Definition removeEmptySections (bs : list Block) : list Block :=
  let st := fold_left pruneStep bs ([], 0) in
  reverse (fst (rem 1 (fst st) (snd st))).

(** [headingIndex]: the index in [bs] of the first heading at the given
    level, or [len(bs)] if there isn't one. *)
Fixpoint headingIndex (bs : list Block) (level : Z) : nat :=
  match bs with
  | [] => 0
  | Heading _ lv _ :: bs' => if (lv =? level)%Z then 0 else S (headingIndex bs' level)
  | _ :: bs' => S (headingIndex bs' level)
  end.

(** ** What the package takes from outside *)

(** Errors.  The Go code builds them with [errors.New] and [fmt.Errorf]; the
    constructors keep what the messages carry. *)
(** An error of the file system ([*fs.PathError] and the like). *)
Inductive fsError : Type := mkFsError (msg : string).

Inductive error : Type :=
| ErrFS (err : fsError)                       (* an error of the file system, passed on as it is *)
| ErrDuplicateLink (key filename : string)    (* "duplicate link reference %q; second in %s" *)
| ErrEmptyContent                             (* "empty content" *)
| ErrNoHeading                                (* "does not start with a heading" *)
| ErrEmptyHeading                             (* "starts with an empty heading" *)
| ErrNonMatchingHeading                       (* "starts with a non-matching heading ..." *)
| ErrIncompleteSection (heading : string)     (* "section with heading %q needs a TODO or a sentence" *)
| ErrPanic.                                   (* a run-time panic (index out of range) *)

(** What [fs.WalkDir] hands to its callback for one entry. *)
Record WalkEntry := mkWalkEntry {
  entryPath : string;
  entryIsDir : bool;
  entryErr : option fsError
}.

(** An [fs.FS]: the entries [fs.WalkDir(fsys, ".")] visits, in its order,
    and the outcome of opening a path and reading it to the end. *)
Record FS := mkFS {
  walkEntries : list WalkEntry;
  readFile : string → fsError + string
}.

(** The library functions whose code is not part of the package. *)
Class Lib := {
  (** [NewParser().Parse] *)
  Parse : string → Document;
  (** what the method [PrintText] of an inline node writes *)
  PrintText : Inline → string;
  (** [strings.TrimSpace] *)
  TrimSpace : string → string;
  (** [path.Dir], which returns "." for the empty path *)
  path_Dir : string → string;
  path_Dir_empty : path_Dir "" = ".";
  (** the order in which [range] visits the entries of a map: unspecified,
      but every entry once *)
  rangeLinks : gmap string Link → list (string * Link);
  rangeLinks_perm : ∀ m, rangeLinks m ≡ₚ map_to_list m
}.

Definition newline : string := String "010"%char "".

(** ** [CheckFragment] and text extraction *)

(** [inlineText] *)
Definition inlineText `{Lib} (ins : list Inline) : string :=
  foldr (λ i s, PrintText i +:+ s) "" ins.

(** [text] and [blocksText].  The calls [text(b.Text)] on the [*md.Text] of
    a heading or paragraph land in the [*md.Text] case. *)
Fixpoint text `{Lib} (b : Block) : string :=
  let blocksText :=
    fix blocksText (bs : list Block) : string :=
      match bs with
      | [] => ""
      | b :: bs' => text b +:+ newline +:+ blocksText bs'
      end in
  match b with
  | Heading _ _ t => inlineText (Inlines t)
  | TextBlock t => inlineText (Inlines t)
  | CodeBlock _ ls => strings.Join ls newline
  | HTMLBlock _ ls => strings.Join ls newline
  | List _ items => blocksText items
  | Item _ bs => blocksText bs
  | Empty _ => ""
  | Paragraph _ t => inlineText (Inlines t)
  | Quote _ bs => blocksText bs
  end.

Fixpoint blocksText `{Lib} (bs : list Block) : string :=
  match bs with
  | [] => ""
  | b :: bs' => text b +:+ newline +:+ blocksText bs'
  end.

(** [headingTextMustMatch]: [len(s) == 0 || s[0] != '+']. *)
Definition headingTextMustMatch (s : string) : bool :=
  match s with
  | EmptyString => true
  | String c _ => negb (Ascii.eqb c "+"%char)
  end.

(** The test of a non-heading block in [CheckFragment]. *)
Definition hasContent `{Lib} (b : Block) : bool :=
  let t := text b in
  strings.Contains t "TODO" || strings.ContainsAny t ".?!".

(** The loop of [CheckFragment] over [doc.Blocks[1:]], with its variables
    [cur] and [found]; the [break] ends the recursion. *)
Fixpoint scanSections `{Lib} (cur : Block) (found : bool) (bs : list Block) : Block * bool :=
  match bs with
  | [] => (cur, found)
  | b :: bs' =>
      if isHeading b then
        if negb found then (cur, found)
        else scanSections b false bs'
      else scanSections cur (hasContent b) bs'
  end.

(** [CheckFragment]; [None] is the nil error. *)
Definition CheckFragment `{Lib} (data : string) : option error :=
  let doc := Parse data in
  match Blocks doc with
  | [] => Some ErrEmptyContent
  | b0 :: rest =>
      if negb (isHeading b0) then Some ErrNoHeading
      else
        let htext := text b0 in
        if String.eqb (TrimSpace htext) "" then Some ErrEmptyHeading
        else if negb (headingTextMustMatch htext) then Some ErrNonMatchingHeading
        else
          let '(cur, found) := scanSections b0 false rest in
          if negb found then Some (ErrIncompleteSection (text cur))
          else None
  end.

(** ** [Merge] *)

(** [stdlibPackage] *)
Definition stdlibPackage `{Lib} (filename : string) : string :=
  let '(dir, rest, _) := strings.Cut filename "/" in
  if negb (strings.HasSuffix dir "stdlib") then ""
  else
    let '(dir, rest, _) := strings.Cut rest "/" in
    if negb (strings.HasSuffix dir "minor") then ""
    else
      let pkg := path_Dir rest in
      if String.eqb pkg "." then "" else pkg.

(** [stdlibPackageHeading] *)
Definition stdlibPackageHeading (pkg : string) (lastLine : Z) : Block :=
  let line := lastLine + 2 in
  let pos := mkPosition line line in
  Heading pos 4
    (mkText pos [InlineLink (mkLink [Plain pkg] ("/pkg/" +:+ pkg +:+ "/") "")]).

(** [sortedMarkdownFilenames]: the callback of [fs.WalkDir] run over the
    entries, then [slices.Sort].  On strings [slices.Sort] yields the one
    list that is a permutation of its input and ascending in the bytewise
    order; [merge_sort] computes it. *)
Fixpoint walkMarkdown (es : list WalkEntry) (filenames : list string) : error + list string :=
  match es with
  | [] => inr filenames
  | e :: es' =>
      match entryErr e with
      | Some err => inl (ErrFS err)
      | None =>
          if negb (entryIsDir e) && strings.HasSuffix (entryPath e) ".md"
          then walkMarkdown es' (filenames ++ [entryPath e])
          else walkMarkdown es' filenames
      end
  end.

Definition sortedMarkdownFilenames (fsys : FS) : error + list string :=
  match walkMarkdown (walkEntries fsys) [] with
  | inl err => inl err
  | inr filenames => inr (merge_sort String.le filenames)
  end.

(** [parseFile] *)
Definition parseFile `{Lib} (fsys : FS) (path : string) : error + Document :=
  match readFile fsys path with
  | inl err => inl (ErrFS err)
  | inr data => inr (Parse data)
  end.

(** The loop "Merge link references" over the entries of [newdoc.Links] in
    the order [range] yields them. *)
Fixpoint mergeLinks (filename : string) (links : gmap string Link)
    (kvs : list (string * Link)) : error + gmap string Link :=
  match kvs with
  | [] => inr links
  | (key, link) :: kvs' =>
      match links !! key with
      | Some _ => inl (ErrDuplicateLink key filename)
      | None => mergeLinks filename (<[key := link]> links) kvs'
      end
  end.

(** The blocks kept by the loop "Append non-empty blocks". *)
Definition nonEmptyBlocks (bs : list Block) : list Block :=
  filter (λ b, isEmpty b = false) bs.

(** The state of the loop of [Merge]: the document [doc] and [prevPkg]. *)
Definition MergeState : Type := Document * string.

(** The body of the loop of [Merge] for one file, after [parseFile]. *)
Definition mergeFragment `{Lib} (filename : string) (newdoc : Document)
    (st : MergeState) : error + MergeState :=
  let '(doc, prevPkg) := st in
  match Blocks newdoc with
  | [] => inr st                                        (* continue *)
  | first :: _ =>
      let shifted : error + (list Block * string * list Block) :=
        match lastBlock (Blocks doc) with
        | None => inr (Blocks doc, prevPkg, Blocks newdoc)     (* len(doc.Blocks) == 0 *)
        | Some lb =>
            let pkg := stdlibPackage filename in
            let blocks :=
              if negb (String.eqb pkg "") && negb (String.eqb pkg prevPkg)
              then Blocks doc ++ [stdlibPackageHeading pkg (EndLine (Pos lb))]
              else Blocks doc in
            match lastBlock blocks with
            | None => inl ErrPanic
            | Some lb' =>
                let lastLine := EndLine (Pos lb') in
                let delta := lastLine + 2 - StartLine (Pos first) in
                inr (blocks, pkg, map (λ b, addLines b delta) (Blocks newdoc))
            end
        end in
      match shifted with
      | inl err => inl err
      | inr (blocks, prevPkg', newBlocks) =>
          match mergeLinks filename (Links doc) (rangeLinks (Links newdoc)) with
          | inl err => inl err
          | inr links =>
              inr (mkDocument (blocks ++ nonEmptyBlocks newBlocks) links, prevPkg')
          end
      end
  end.

(** The loop [for _, filename := range filenames]. *)
Fixpoint mergeLoop `{Lib} (fsys : FS) (filenames : list string)
    (st : MergeState) : error + MergeState :=
  match filenames with
  | [] => inr st
  | filename :: rest =>
      match parseFile fsys filename with
      | inl err => inl err
      | inr newdoc =>
          match mergeFragment filename newdoc st with
          | inl err => inl err
          | inr st' => mergeLoop fsys rest st'
          end
      end
  end.

(** The end of [Merge]: pruning and the blank line before the links. *)
Definition finishMerge (doc : Document) : error + Document :=
  let blocks := removeEmptySections (Blocks doc) in
  if bool_decide (blocks ≠ []) && bool_decide (Links doc ≠ ∅) then
    match lastBlock blocks with
    | None => inl ErrPanic
    | Some lb =>
        let lastPos := Pos lb in
        let lastPos := mkPosition (StartLine lastPos + 2) (EndLine lastPos + 2) in
        inr (mkDocument (blocks ++ [Empty lastPos]) (Links doc))
    end
  else inr (mkDocument blocks (Links doc)).

(** [Merge] *)
Definition Merge `{Lib} (fsys : FS) : error + Document :=
  match sortedMarkdownFilenames fsys with
  | inl err => inl err
  | inr filenames =>
      match mergeLoop fsys filenames (mkDocument [] ∅, "") with
      | inl err => inl err
      | inr (doc, _) => finishMerge doc
      end
  end.

(** ** Properties of block sequences *)

(** [a] ends no later than [b] starts. *)
Definition endsBefore (a b : Block) : Prop := EndLine (Pos a) ≤ StartLine (Pos b).

(** Position monotonicity: every block ends no later than the next starts. *)
Definition monotone (bs : list Block) : Prop := Sorted endsBefore bs.

(** [endsBefore], and a heading directly followed by a heading leaves a
    blank line in between. *)
Definition follows (a b : Block) : Prop :=
  endsBefore a b ∧
  (isHeading a = true → isHeading b = true → EndLine (Pos a) + 2 ≤ StartLine (Pos b)).

Definition spaced (bs : list Block) : Prop := Sorted follows bs.

(** A heading directly followed by a heading is followed by a deeper one. *)
Definition deeper (a b : Block) : Prop :=
  match a, b with
  | Heading _ la _, Heading _ lb _ => la < lb
  | _, _ => True
  end.

(** [b] is a heading of level at least [level]: what [rem level] removes. *)
Definition headingFrom (level : Z) (b : Block) : bool :=
  match b with
  | Heading _ lv _ => (level <=? lv)%Z
  | _ => false
  end.

(** No section of [bs] is empty: no heading is directly followed by a heading
    of the same or a smaller level, and the last block is not a heading. *)
Definition noEmptySections (bs : list Block) : Prop :=
  Sorted deeper bs ∧
  match last bs with Some b => isHeading b = false | None => True end.

(** The blocks of [bs] that are not headings. *)
Definition nonHeadings (bs : list Block) : list Block :=
  filter (λ b, isHeading b = false) bs.

(** The line range of a block is well formed. *)
Definition wfPos (b : Block) : Prop := StartLine (Pos b) ≤ EndLine (Pos b).

Global Instance endsBefore_dec : RelDecision endsBefore.
Proof. intros a b. unfold endsBefore. apply _. Defined.

Global Instance follows_dec : RelDecision follows.
Proof. intros a b. unfold follows. apply _. Defined.

Global Instance monotone_dec bs : Decision (monotone bs).
Proof. unfold monotone. apply _. Defined.

(** ** A concrete library, for running the code on examples *)

(** Plain text of an inline node: the text of [Plain], the inner text of a
    link, the source of anything else. *)
Fixpoint plainText (i : Inline) : string :=
  match i with
  | Plain s => s
  | InlineLink (mkLink inner _ _) =>
      (fix go (l : list Inline) : string :=
         match l with
         | [] => ""
         | x :: l' => plainText x +:+ go l'
         end) inner
  | InlineOther s => s
  end.

(** The part of a slash-separated name before its last slash, if it has one. *)
Fixpoint beforeLastSlash (s : string) : option string :=
  match s with
  | EmptyString => None
  | String c s' =>
      match beforeLastSlash s' with
      | Some d => Some (String c d)
      | None => if Ascii.eqb c "/"%char then Some "" else None
      end
  end.

(** [path.Dir] on names without empty, "." or ".." elements, where cleaning
    the directory only drops its final slash. *)
Definition simpleDir (s : string) : string :=
  match beforeLastSlash s with
  | None => "."
  | Some EmptyString => "/"
  | Some d => d
  end.

(** Removal of leading ASCII white space; [trimSpaceASCII] removes it at
    both ends. *)
Fixpoint trimLeft (s : string) : string :=
  match s with
  | String c s' => if Ascii.is_space c then trimLeft s' else s
  | EmptyString => ""
  end.

Definition trimSpaceASCII (s : string) : string :=
  String.rev (trimLeft (String.rev (trimLeft s))).

(** A parser given by its graph on finitely many inputs; any other input
    parses to the empty document. *)
Fixpoint parseTable (table : list (string * Document)) (data : string) : Document :=
  match table with
  | [] => mkDocument [] ∅
  | (d, doc) :: table' => if String.eqb d data then doc else parseTable table' data
  end.

Definition tableLib (table : list (string * Document)) : Lib := {|
  Parse := parseTable table;
  PrintText := plainText;
  TrimSpace := trimSpaceASCII;
  path_Dir := simpleDir;
  path_Dir_empty := eq_refl;
  rangeLinks := map_to_list;
  rangeLinks_perm := λ m, reflexivity (map_to_list m)
|}.

(** A file system holding the given files, each readable. *)
Definition filesFS (files : list (string * string)) : FS := {|
  walkEntries := map (λ f, mkWalkEntry (fst f) false None) files;
  readFile := λ path,
    match list_find (λ f, fst f = path) files with
    | Some (_, f) => inr (snd f)
    | None => inl (mkFsError "file does not exist")
    end
|}.

(** Blocks for the examples: a one-line-text heading, a paragraph. *)
Definition heading (s e level : Z) (title : string) : Block :=
  Heading (mkPosition s e) level (mkText (mkPosition s e) [Plain title]).

Definition paragraph (s e : Z) (txt : string) : Block :=
  Paragraph (mkPosition s e) (mkText (mkPosition s e) [Plain txt]).

(** ** Definitions used by the statements *)

(** What [pruneStep] leaves of the stack before it pushes. *)
Definition popped (st : list Block * Z) (b : Block) : list Block * Z :=
  match b with
  | Heading _ lv _ => rem lv st.1 st.2
  | _ => st
  end.

(** The stack that [removeEmptySections] reverses into its result. *)
Definition finalStack (bs : list Block) : list Block :=
  let st := fold_left pruneStep bs ([], 0) in (rem 1 st.1 st.2).1.

(** A path segment: a string that holds no slash. *)
Definition segment (s : string) : Prop := strings.Index s "/" = None.

(** [filename] is [<X>stdlib/<Y>minor/<P>]: a segment ending in "stdlib", a
    segment ending in "minor", and a remainder [p]. *)
Definition stdlibShape (filename x y p : string) : Prop :=
  segment (x +:+ "stdlib") ∧ segment (y +:+ "minor") ∧
  filename = (x +:+ "stdlib") +:+ "/" +:+ (y +:+ "minor") +:+ "/" +:+ p.

(** The heading that [Merge] puts in front of the blocks of [filename]: the
    heading of its package, unless the file has none or the previous file had
    the same. *)
Definition packageHeading `{Lib} (filename prevPkg : string) (lastLine : Z) : list Block :=
  let pkg := stdlibPackage filename in
  if negb (String.eqb pkg "") && negb (String.eqb pkg prevPkg)
  then [stdlibPackageHeading pkg lastLine]
  else [].

(** What one file does to the links and to the rest of the state. *)
Definition withLinks `{Lib} (filename : string) (doc newdoc : Document)
    (blocks : list Block) (prevPkg : string) : error + MergeState :=
  match mergeLinks filename (Links doc) (rangeLinks (Links newdoc)) with
  | inl err => inl err
  | inr links => inr (mkDocument blocks links, prevPkg)
  end.

(** A fragment whose kept blocks are [spaced] and do not start before its
    first block (which may be an [Empty] one). *)
Definition orderedFragment (d : Document) : Prop :=
  spaced (nonEmptyBlocks (Blocks d)) ∧
  ∀ first b, head (Blocks d) = Some first → head (nonEmptyBlocks (Blocks d)) = Some b →
             StartLine (Pos first) ≤ StartLine (Pos b).

(** One of [files] holds a link reference under [key]. *)
Definition heldBy `{Lib} (fsys : FS) (files : list string) (key : string) : Prop :=
  ∃ f data, f ∈ files ∧ readFile fsys f = inr data ∧ is_Some (Links (Parse data) !! key).

(** The blank line [Merge] appends before the links: the range of the last
    block moved down by two lines. *)
Definition trailingEmpty (blocks : list Block) (links : gmap string Link) : list Block :=
  match last blocks with
  | Some lb =>
      if bool_decide (links ≠ ∅)
      then [Empty (mkPosition (StartLine (Pos lb) + 2) (EndLine (Pos lb) + 2))]
      else []
  | None => []
  end.

(** The entries the callback of [sortedMarkdownFilenames] keeps. *)
Definition isMarkdownFile (e : WalkEntry) : Prop :=
  entryIsDir e = false ∧ strings.HasSuffix (entryPath e) ".md" = true.

Global Instance isMarkdownFile_dec e : Decision (isMarkdownFile e).
Proof. unfold isMarkdownFile. apply _. Defined.

(** A fragment: a heading, a paragraph with a sentence, a paragraph without. *)
Definition sentenceThenPlain : Document :=
  mkDocument
    [heading 1 1 1 "Title";
     paragraph 3 3 "Some sentence.";
     paragraph 5 5 "No punctuation here"] ∅.

(** A link reference shared by the examples. *)
Definition exLink : Link := mkLink [Plain "Go"] "https://go.dev" "".

(** A fragment with a four-line paragraph and a link reference. *)
Definition exIntro : Document :=
  mkDocument [heading 1 1 2 "Title"; paragraph 3 6 "Some text."] {[ "go" := exLink ]}.

(** A fragment that starts with an [Empty] block. *)
Definition exChange : Document :=
  mkDocument [Empty (mkPosition 1 1); paragraph 2 2 "A change."] ∅.

(** The library of the examples: the parser is given on three inputs. *)
Definition exLib : Lib :=
  tableLib [("intro", exIntro); ("change", exChange); ("check", sentenceThenPlain)].

(** A paragraph, three headings on the next three lines, a paragraph. *)
Definition exHeadings : list Block :=
  [paragraph 1 1 "text."; heading 2 2 1 "A"; heading 3 3 1 "B"; heading 4 4 1 "C";
   paragraph 5 5 "more."].

(** An empty section before a section with a paragraph. *)
Definition exSections : list Block :=
  [heading 1 1 1 "Foo"; heading 3 3 1 "Bar"; paragraph 4 4 "text"].

(** Decide a closed decidable proposition by evaluation. *)
Ltac by_computation := apply (bool_decide_unpack _); vm_compute; exact I.

Global Instance spaced_dec bs : Decision (spaced bs).
Proof. unfold spaced. apply _. Defined.

(** ** Sections of a fragment, as [CheckFragment] sees them *)

(** The block at the end of [pre] is not a heading and passes the test of
    [CheckFragment]; for an empty [pre] the flag [found] decides. *)
Definition contentAtEnd `{Lib} (found : bool) (pre : list Block) : Prop :=
  match last pre with
  | None => found = true
  | Some p => isHeading p = false ∧ hasContent p = true
  end.

(** Every heading of [bs], and the end of [bs], comes directly after a block
    with content ([found] stands for the block before [bs]). *)
Definition sectionsComplete `{Lib} (found : bool) (bs : list Block) : Prop :=
  ∀ pre, (pre = bs ∨ ∃ h post, bs = pre ++ h :: post ∧ isHeading h = true) →
         contentAtEnd found pre.

(** [tail] is empty or starts with a heading. *)
Definition atSectionEnd (tail : list Block) : Prop :=
  match tail with
  | [] => True
  | h :: _ => isHeading h = true
  end.

(** [o] is [b] with its line range moved up by some number of lines. *)
Definition movedUp (o b : Block) : Prop := ∃ d : Z, o = addLines b (- d).

(** The heading levels of [bs] are at least 1, as the parser gives them. *)
Definition levelsFrom1 (bs : list Block) : Prop :=
  Forall (λ b, isHeading b = true → headingFrom 1 b = true) bs.

(** A file system whose walk reports an error at its second entry. *)
Definition brokenFS : FS := {|
  walkEntries :=
    [mkWalkEntry "a.md" false None;
     mkWalkEntry "private" true (Some (mkFsError "permission denied"));
     mkWalkEntry "z.md" false None];
  readFile := λ _, inl (mkFsError "file does not exist")
|}.

(** What one file adds to the accumulator of [Merge]: nothing when its
    fragment has no block; otherwise the blocks of the fragment other than
    [Empty] ones, all shifted by the same number of lines, with or without
    the heading of the file's package in front. *)
Definition contribution `{Lib} (fsys : FS) (filename : string) (blocks : list Block) : Prop :=
  ∃ data,
    readFile fsys filename = inr data ∧
    ((Blocks (Parse data) = [] ∧ blocks = []) ∨
     (Blocks (Parse data) ≠ [] ∧
      ∃ hs delta,
        blocks = hs ++ map (λ b, addLines b delta) (nonEmptyBlocks (Blocks (Parse data))) ∧
        (hs = [] ∨
         ∃ line, stdlibPackage filename ≠ "" ∧
                 hs = [stdlibPackageHeading (stdlibPackage filename) line]))).

(** A fragment whose blocks are out of order. *)
Definition exNotes : Document :=
  mkDocument [paragraph 9 9 "Later."; paragraph 1 1 "Earlier."] ∅.

(** The library of the examples, with the parse of a file of notes added. *)
Definition exLibNotes : Lib :=
  tableLib [("intro", exIntro); ("change", exChange); ("notes", exNotes)].

(** A tree with two Markdown files, a directory whose name ends in ".md",
    and two files that are not Markdown. *)
Definition exTree : FS := {|
  walkEntries :=
    [mkWalkEntry "z.md" false None;
     mkWalkEntry "docs.md" true None;
     mkWalkEntry "notes.txt" false None;
     mkWalkEntry "README" false None;
     mkWalkEntry "a.md" false None];
  readFile := λ path,
    if String.eqb path "a.md" then inr "intro"
    else if String.eqb path "z.md" then inr "change"
    else if String.eqb path "notes.txt" then inr "notes"
    else inl (mkFsError "file does not exist")
|}.

(** * Proofs *)

(** ** [addLines] *)

Lemma Pos_addLines b n :
  Pos (addLines b n) = mkPosition (StartLine (Pos b) + n) (EndLine (Pos b) + n).
Proof. by destruct b. Qed.

Lemma isHeading_addLines b n : isHeading (addLines b n) = isHeading b.
Proof. by destruct b. Qed.

Lemma isEmpty_addLines b n : isEmpty (addLines b n) = isEmpty b.
Proof. by destruct b. Qed.

Lemma headingFrom_addLines level b n : headingFrom level (addLines b n) = headingFrom level b.
Proof. by destruct b. Qed.

Lemma addLines_0 b : addLines b 0 = b.
Proof.
  unfold addLines, position.
  destruct b as [[] ? ?|[[] ?]|[] ?|[] ?|[] ?|[] ?|[]|[] ?|[] ?]; simpl;
    by rewrite !Z.add_0_r.
Qed.

Lemma addLines_addLines b n m : addLines (addLines b n) m = addLines b (n + m).
Proof.
  unfold addLines, position.
  destruct b as [[] ? ?|[[] ?]|[] ?|[] ?|[] ?|[] ?|[]|[] ?|[] ?]; simpl;
    by rewrite !Z.add_assoc.
Qed.

Lemma headingFrom_isHeading level b : headingFrom level b = true → isHeading b = true.
Proof. by destruct b. Qed.

Lemma endsBefore_addLines a b n :
  endsBefore (addLines a n) (addLines b n) ↔ endsBefore a b.
Proof. unfold endsBefore. rewrite !Pos_addLines. simpl. lia. Qed.

Lemma follows_addLines a b n : follows (addLines a n) (addLines b n) ↔ follows a b.
Proof.
  unfold follows. rewrite endsBefore_addLines, !isHeading_addLines, !Pos_addLines.
  simpl. split; intros [? Hh]; (split; [done|]); intros Ha Hb; specialize (Hh Ha Hb); lia.
Qed.

Lemma follows_endsBefore a b : follows a b → endsBefore a b.
Proof. by intros [? _]. Qed.

(** ** Sequences sorted by a relation between neighbours *)

Section neighbours.
Context {A : Type} (R : relation A).

Lemma Sorted_suffix (l k : list A) : Sorted R l → k `suffix_of` l → Sorted R k.
Proof.
  intros Hl [p ->]. induction p as [|x p IH]; [done|].
  apply IH. by inversion Hl.
Qed.

Lemma HdRel_head (x : A) (l : list A) :
  HdRel R x l ↔ ∀ y, head l = Some y → R x y.
Proof.
  split.
  - intros [|y l' Hxy] z Hz; simplify_eq/=; done.
  - destruct l as [|y l']; constructor; auto.
Qed.

Lemma Sorted_app_junction (l k : list A) :
  Sorted R (l ++ k) ↔
  Sorted R l ∧ Sorted R k ∧ ∀ x y, last l = Some x → head k = Some y → R x y.
Proof.
  induction l as [|a l IH]; simpl.
  - split; [intros ?; split_and!; [constructor|done|done] | by intros (_ & ? & _)].
  - split.
    + intros Hs. apply Sorted_inv in Hs as [Hs Hhd].
      apply IH in Hs as (Hl & Hk & Hj). split_and!; [|done|].
      * constructor; [done|]. destruct l; [constructor|]. inversion Hhd; by constructor.
      * intros x y Hx Hy. destruct l as [|b l]; simpl in *.
        -- simplify_eq. destruct k; simplify_eq/=. by inversion Hhd.
        -- by apply Hj.
    + intros (Hl & Hk & Hj). apply Sorted_inv in Hl as [Hl Hhd].
      constructor.
      * apply IH. split_and!; [done..|].
        intros x y Hx Hy. apply Hj; [|done].
        destruct l; [done|]. by rewrite last_cons_cons.
      * destruct l as [|b l]; simpl.
        -- apply HdRel_head. intros y Hy. by apply Hj.
        -- constructor. by inversion Hhd.
Qed.

Lemma Sorted_weaken (R' : relation A) (l : list A) :
  (∀ x y, R x y → R' x y) → Sorted R l → Sorted R' l.
Proof.
  intros HR. induction 1 as [|x l Hl IH Hhd]; constructor; [done|].
  destruct Hhd; constructor; auto.
Qed.
End neighbours.

Lemma spaced_monotone bs : spaced bs → monotone bs.
Proof. apply Sorted_weaken, follows_endsBefore. Qed.

(** ** [rem] *)

Lemma rem_suffix level res delta : (rem level res delta).1 `suffix_of` res.
Proof.
  revert delta. induction res as [|b res IH]; intros delta; simpl; [done|].
  destruct b; try done. case_match; [|done].
  by apply suffix_cons_r.
Qed.

Lemma rem_head level res delta r :
  head (rem level res delta).1 = Some r → headingFrom level r = false.
Proof.
  revert delta. induction res as [|b res IH]; intros delta; simpl; [done|].
  destruct b; simpl; try (intros; simplify_eq/=; done).
  case_match eqn:Hlv; [by apply IH|]. intros; simplify_eq/=. done.
Qed.

Lemma rem_keep level res delta :
  (∀ r, head res = Some r → headingFrom level r = false) →
  rem level res delta = (res, delta).
Proof.
  destruct res as [|b res]; [done|]. intros Hr.
  specialize (Hr b eq_refl). destruct b; simpl in *; try done. by rewrite Hr.
Qed.

Lemma rem_nonHeadings level res delta :
  nonHeadings (rem level res delta).1 = nonHeadings res.
Proof.
  revert delta. induction res as [|b res IH]; intros delta; simpl; [done|].
  destruct b; try done. case_match; [|done].
  rewrite IH. unfold nonHeadings. by rewrite filter_cons_False.
Qed.

Lemma rem_delta_le level res delta :
  Forall wfPos res → delta ≤ (rem level res delta).2.
Proof.
  revert delta. induction res as [|b res IH]; intros delta Hwf; simpl; [done|].
  apply Forall_cons in Hwf as [Hb Hwf].
  destruct b; try done. case_match; [|done].
  etrans; [|by apply IH]. unfold wfPos in Hb. simpl in Hb. lia.
Qed.

(** ** The loop of [removeEmptySections] *)

Lemma pruneStep_popped st b :
  pruneStep st b = (addLines b (- (popped st b).2) :: (popped st b).1, (popped st b).2).
Proof. done. Qed.

Lemma popped_suffix st b : (popped st b).1 `suffix_of` st.1.
Proof. destruct b; simpl; try done. apply rem_suffix. Qed.

Lemma popped_nonHeadings st b : nonHeadings (popped st b).1 = nonHeadings st.1.
Proof. destruct b; simpl; try done. apply rem_nonHeadings. Qed.

Lemma popped_delta_le st b : Forall wfPos st.1 → st.2 ≤ (popped st b).2.
Proof. destruct b; simpl; try done. apply rem_delta_le. Qed.

Lemma popped_not_heading st b : isHeading b = false → popped st b = st.
Proof. by destruct b. Qed.

Lemma popped_deeper st b r : head (popped st b).1 = Some r → deeper r b.
Proof.
  destruct b as [pos lv t| | | | | | | |]; simpl; try (by destruct r).
  intros Hr%rem_head. destruct r; simpl in *; [lia|done..].
Qed.

(** *** Positions *)

Lemma rem_follows level res delta x :
  isHeading x = true →
  Sorted (flip follows) res →
  (∀ r, head res = Some r → follows r (addLines x (- delta))) →
  ∀ r, head (rem level res delta).1 = Some r →
       follows r (addLines x (- (rem level res delta).2)).
Proof.
  intros Hx. revert delta.
  induction res as [|b res IH]; intros delta Hs Hj; simpl; [done|].
  destruct b as [pos lv t| | | | | | | |]; try (by apply Hj).
  case_match; [|by apply Hj].
  apply Sorted_inv in Hs as [Hs Hhd]. apply IH; [done|].
  intros r Hr. rewrite HdRel_head in Hhd. specialize (Hhd r Hr).
  specialize (Hj _ eq_refl).
  unfold flip, follows, endsBefore in *. rewrite isHeading_addLines, Pos_addLines in *.
  simpl in *. destruct Hhd as [Hle Hgap], Hj as [_ Hj].
  specialize (Hj eq_refl Hx). split; [lia|]. intros Hr' _. specialize (Hgap Hr' eq_refl). lia.
Qed.

Lemma popped_follows st x :
  Sorted (flip follows) st.1 →
  (∀ r, head st.1 = Some r → follows r (addLines x (- st.2))) →
  ∀ r, head (popped st x).1 = Some r → follows r (addLines x (- (popped st x).2)).
Proof.
  intros Hs Hj. destruct (isHeading x) eqn:Hx.
  - destruct x as [pos lv t| | | | | | | |]; try done.
    unfold popped. intros r Hr. by apply (rem_follows lv st.1 st.2).
  - by rewrite popped_not_heading.
Qed.

Lemma fold_pruneStep_spaced bs st :
  Sorted follows bs →
  Sorted (flip follows) st.1 →
  (∀ r x, head st.1 = Some r → head bs = Some x → follows r (addLines x (- st.2))) →
  Sorted (flip follows) (fold_left pruneStep bs st).1.
Proof.
  revert st. induction bs as [|x bs IH]; intros st Hbs Hs Hj; simpl; [done|].
  apply Sorted_inv in Hbs as [Hbs Hhd].
  apply IH; [done|..]; rewrite pruneStep_popped; simpl.
  - constructor; [by eapply Sorted_suffix, popped_suffix|].
    apply HdRel_head. intros r Hr. apply popped_follows; auto.
  - intros r y [= <-] Hy. apply follows_addLines.
    rewrite HdRel_head in Hhd. auto.
Qed.

Lemma removeEmptySections_spaced bs : spaced bs → spaced (removeEmptySections bs).
Proof.
  intros Hbs. unfold spaced, removeEmptySections.
  apply (Sorted_reverse (flip follows)).
  eapply Sorted_suffix; [|apply rem_suffix].
  apply fold_pruneStep_spaced; [done|constructor|done].
Qed.

(** *** Levels of neighbouring headings *)

Lemma fold_pruneStep_deeper bs st :
  Sorted (flip deeper) st.1 → Sorted (flip deeper) (fold_left pruneStep bs st).1.
Proof.
  revert st. induction bs as [|x bs IH]; intros st Hs; simpl; [done|].
  apply IH. rewrite pruneStep_popped; simpl.
  constructor; [by eapply Sorted_suffix, popped_suffix|].
  apply HdRel_head. intros r Hr%popped_deeper.
  unfold flip. by destruct r, x.
Qed.

Lemma deeper_rem_keep res delta pos lv t :
  HdRel (flip deeper) (Heading pos lv t) res → rem lv res delta = (res, delta).
Proof.
  rewrite HdRel_head. intros Hhd. apply rem_keep. intros r Hr.
  specialize (Hhd r Hr). unfold flip in Hhd. destruct r; simpl in *; [lia|done..].
Qed.

Lemma fold_pruneStep_settled bs res :
  Sorted (flip deeper) (reverse bs ++ res) →
  fold_left pruneStep bs (res, 0) = (reverse bs ++ res, 0).
Proof.
  revert res. induction bs as [|x bs IH]; intros res Hs; simpl; [done|].
  rewrite reverse_cons, <-app_assoc in Hs. simpl in Hs.
  assert (popped (res, 0) x = (res, 0)) as Hp.
  { apply (Sorted_suffix _ _ (x :: res)) in Hs; [|by apply suffix_app_r].
    apply Sorted_inv in Hs as [_ Hhd].
    destruct x as [pos lv t| | | | | | | |]; try done.
    unfold popped. simpl. by apply (deeper_rem_keep _ _ pos lv t). }
  rewrite pruneStep_popped, Hp. simpl. rewrite addLines_0, IH by done.
  by rewrite reverse_cons, <-app_assoc.
Qed.

Lemma removeEmptySections_finalStack bs : removeEmptySections bs = reverse (finalStack bs).
Proof. done. Qed.

Lemma finalStack_deeper bs : Sorted (flip deeper) (finalStack bs).
Proof.
  eapply Sorted_suffix; [|apply rem_suffix].
  apply fold_pruneStep_deeper. constructor.
Qed.

Lemma finalStack_head bs r : head (finalStack bs) = Some r → headingFrom 1 r = false.
Proof. apply rem_head. Qed.

(** A sequence that [removeEmptySections] returns as it is: neighbouring
    headings go deeper, and the last block is no heading of level 1 or more. *)
Lemma removeEmptySections_fixed bs :
  Sorted deeper bs →
  (∀ b, last bs = Some b → headingFrom 1 b = false) →
  removeEmptySections bs = bs.
Proof.
  intros Hs Hlast. unfold removeEmptySections.
  rewrite fold_pruneStep_settled by (rewrite app_nil_r; by apply Sorted_reverse).
  simpl. rewrite app_nil_r, rem_keep.
  - apply reverse_involutive.
  - intros r. rewrite head_reverse. apply Hlast.
Qed.

(** *** The blocks that are not headings *)

Lemma wfPos_addLines b n : wfPos (addLines b n) ↔ wfPos b.
Proof. unfold wfPos. rewrite Pos_addLines. simpl. lia. Qed.

Lemma nonHeadings_snoc bs b :
  nonHeadings (bs ++ [b]) =
  nonHeadings bs ++ (if isHeading b then [] else [b]).
Proof.
  unfold nonHeadings. rewrite filter_app. f_equal.
  destruct (isHeading b) eqn:Hb.
  - rewrite filter_cons_False; [done|]. by rewrite Hb.
  - by rewrite filter_cons_True.
Qed.

Lemma nonHeadings_reverse bs : nonHeadings (reverse bs) = reverse (nonHeadings bs).
Proof. apply filter_reverse. Qed.

Lemma nonHeadings_cons b bs :
  nonHeadings (b :: bs) = (if isHeading b then [] else [b]) ++ nonHeadings bs.
Proof.
  unfold nonHeadings. destruct (isHeading b) eqn:Hb.
  - rewrite filter_cons_False; [done|]. by rewrite Hb.
  - by rewrite filter_cons_True.
Qed.

Lemma fold_pruneStep_nonHeadings bs st :
  Forall wfPos st.1 → Forall wfPos bs →
  ∃ ds : list Z,
    length ds = length (nonHeadings bs) ∧
    Forall (λ d, st.2 ≤ d) ds ∧
    Sorted Z.le ds ∧
    nonHeadings (reverse (fold_left pruneStep bs st).1) =
      nonHeadings (reverse st.1) ++
      zip_with (λ b d, addLines b (- d)) (nonHeadings bs) ds.
Proof.
  revert st. induction bs as [|x bs IH]; intros st Hst Hbs; simpl.
  { exists []. split_and!; try done; [by constructor..|by rewrite app_nil_r]. }
  apply Forall_cons in Hbs as [Hx Hbs].
  pose proof (popped_delta_le st x Hst) as Hle.
  assert (Forall wfPos (pruneStep st x).1) as Hwf.
  { rewrite pruneStep_popped. simpl. constructor; [by apply wfPos_addLines|].
    destruct (popped_suffix st x) as [p Hp]. rewrite Hp in Hst.
    by apply Forall_app in Hst as [_ ?]. }
  destruct (IH (pruneStep st x) Hwf Hbs) as (ds & Hlen & Hge & Hsort & Heq).
  rewrite Heq. clear Heq IH Hwf.
  rewrite pruneStep_popped in Hge |- *. simpl in Hge |- *.
  rewrite reverse_cons, nonHeadings_snoc, isHeading_addLines.
  rewrite nonHeadings_reverse, popped_nonHeadings, <-nonHeadings_reverse.
  rewrite nonHeadings_cons.
  destruct (isHeading x) eqn:Hhx; simpl.
  - exists ds. split_and!; [done| |done|by rewrite app_nil_r].
    eapply Forall_impl; [done|]. simpl. lia.
  - rewrite popped_not_heading in * by done.
    exists (st.2 :: ds). split_and!; simpl.
    + by rewrite Hlen.
    + constructor; [lia|]. eapply Forall_impl; [done|]. simpl. lia.
    + constructor; [done|]. apply HdRel_head. intros d Hd.
      apply head_Some in Hd as [ds' ->]. by apply Forall_cons in Hge as [? _].
    + by rewrite <-app_assoc.
Qed.

(** ** The claims on [removeEmptySections] *)

(** C8.  Pruning is idempotent: [removeEmptySections] returns its own result
    unchanged, positions included. *)
Theorem removeEmptySections_idempotent (bs : list Block) :
  removeEmptySections (removeEmptySections bs) = removeEmptySections bs.
Proof.
  apply removeEmptySections_fixed.
  - rewrite removeEmptySections_finalStack.
    apply (Sorted_reverse (flip deeper)), finalStack_deeper.
  - intros b. rewrite removeEmptySections_finalStack, last_reverse.
    apply finalStack_head.
Qed.

(** C10.  [removeEmptySections] discards headings only.  On blocks whose line
    ranges are well formed ([StartLine ≤ EndLine]), the blocks of the result
    that are not headings are those of the input, in the same order, each
    moved up by a number of lines [d]; the numbers are non-negative and grow
    along the sequence (the running [delta]). *)
Theorem removeEmptySections_keeps_nonHeadings (bs : list Block) :
  Forall wfPos bs →
  ∃ ds : list Z,
    length ds = length (nonHeadings bs) ∧
    Forall (λ d, 0 ≤ d) ds ∧
    Sorted Z.le ds ∧
    nonHeadings (removeEmptySections bs) =
      zip_with (λ b d, addLines b (- d)) (nonHeadings bs) ds.
Proof.
  intros Hwf.
  destruct (fold_pruneStep_nonHeadings bs ([], 0)) as (ds & Hlen & Hge & Hsort & Heq);
    [by constructor|done|].
  exists ds. split_and!; [done..|].
  unfold removeEmptySections.
  rewrite nonHeadings_reverse, rem_nonHeadings, <-nonHeadings_reverse.
  by rewrite Heq.
Qed.

(** ** Strings *)

Lemma append_nil_r (s : string) : s +:+ "" = s.
Proof. induction s as [|c s IH]; simpl; [done|]. unfold String.app in *. simpl. by rewrite IH. Qed.

Lemma append_assoc (s t u : string) : (s +:+ t) +:+ u = s +:+ t +:+ u.
Proof. induction s as [|c s IH]; [done|]. unfold String.app in *. simpl. by rewrite IH. Qed.

Lemma length_append (s t : string) :
  String.length (s +:+ t) = (String.length s + String.length t)%nat.
Proof. induction s as [|c s IH]; [done|]. unfold String.app in *. simpl. by rewrite IH. Qed.

Lemma substring_0_length (s : string) : String.substring 0 (String.length s) s = s.
Proof. induction s as [|c s IH]; [done|]. simpl. by rewrite IH. Qed.

Lemma substring_0_0 (s : string) : String.substring 0 0 s = "".
Proof. by destruct s. Qed.

Lemma substring_split (s : string) (k : nat) :
  (k ≤ String.length s)%nat →
  s = String.substring 0 k s +:+ String.substring k (String.length s - k) s.
Proof.
  revert k. induction s as [|c s IH]; intros k Hk; simpl in *.
  - by destruct k.
  - destruct k as [|k]; simpl.
    + by rewrite substring_0_length.
    + unfold String.app in *. simpl. rewrite <-IH by lia. done.
Qed.

Lemma substring_append_r (s t : string) :
  String.substring (String.length s) (String.length t) (s +:+ t) = t.
Proof.
  induction s as [|c s IH]; simpl.
  - apply substring_0_length.
  - unfold String.app in *. simpl. apply IH.
Qed.

Lemma HasSuffix_iff (s suffix : string) :
  strings.HasSuffix s suffix = true ↔ ∃ x, s = x +:+ suffix.
Proof.
  unfold strings.HasSuffix. rewrite andb_true_iff, Nat.leb_le, String.eqb_eq. split.
  - intros [Hle Heq]. set (m := String.length suffix) in *.
    exists (String.substring 0 (String.length s - m) s).
    pose proof (substring_split s (String.length s - m)) as Hsp.
    replace (String.length s - (String.length s - m))%nat with m in Hsp by lia.
    rewrite Heq in Hsp. apply Hsp. lia.
  - intros [x ->]. rewrite length_append. split; [lia|].
    replace (String.length x + String.length suffix - String.length suffix)%nat
      with (String.length x) by lia.
    apply substring_append_r.
Qed.

Lemma prefix_slash (c : ascii) (s : string) :
  String.prefix "/" (String c s) = Ascii.eqb c "/".
Proof.
  change (String.prefix "/" (String c s))
    with (if ascii_dec "/" c then String.prefix "" s else false).
  destruct (ascii_dec "/" c) as [<-|Hne].
  - by destruct s.
  - symmetry. apply Ascii.eqb_neq. congruence.
Qed.

Lemma Index_cons (c : ascii) (s substr : string) :
  strings.Index (String c s) substr =
  if String.prefix substr (String c s) then Some 0%nat else S <$> strings.Index s substr.
Proof. done. Qed.

Lemma Index_slash_cons (c : ascii) (s : string) :
  strings.Index (String c s) "/" =
  if Ascii.eqb c "/" then Some 0%nat else S <$> strings.Index s "/".
Proof. by rewrite Index_cons, prefix_slash. Qed.

Lemma Cut_slash_nil : strings.Cut "" "/" = ("", "", false).
Proof. done. Qed.

Lemma Cut_slash_cons (c : ascii) (s : string) :
  strings.Cut (String c s) "/" =
  if Ascii.eqb c "/" then ("", s, true)
  else let '(before, after, found) := strings.Cut s "/" in
       if found then (String c before, after, true) else (String c s, "", false).
Proof.
  unfold strings.Cut. rewrite Index_slash_cons.
  destruct (Ascii.eqb c "/"); simpl.
  - by rewrite Nat.sub_0_r, substring_0_length.
  - by destruct (strings.Index s "/").
Qed.

Lemma segment_cons (c : ascii) (s : string) :
  segment (String c s) ↔ c ≠ "/"%char ∧ segment s.
Proof.
  unfold segment. rewrite Index_slash_cons.
  destruct (Ascii.eqb_spec c "/") as [->|Hne].
  - split; [done|by intros [? _]].
  - destruct (strings.Index s "/"); simpl; split; try done; by intros [_ ?].
Qed.

Lemma Cut_segment (s : string) : segment s → strings.Cut s "/" = (s, "", false).
Proof. unfold segment, strings.Cut. by intros ->. Qed.

Lemma Cut_append_slash (x rest : string) :
  segment x → strings.Cut (x +:+ "/" +:+ rest) "/" = (x, rest, true).
Proof.
  induction x as [|c x IH]; intros Hx.
  - change ("" +:+ "/" +:+ rest) with (String "/" rest). by rewrite Cut_slash_cons.
  - apply segment_cons in Hx as [Hc Hx].
    change (String c x +:+ "/" +:+ rest) with (String c (x +:+ "/" +:+ rest)).
    rewrite Cut_slash_cons, IH by done.
    by destruct (Ascii.eqb_spec c "/").
Qed.

Lemma Cut_slash_inv (s before after : string) (found : bool) :
  strings.Cut s "/" = (before, after, found) →
  if found then s = before +:+ "/" +:+ after ∧ segment before
  else before = s ∧ after = "" ∧ segment s.
Proof.
  revert before after found. induction s as [|c s IH]; intros before after found.
  - rewrite Cut_slash_nil. by intros [= <- <- <-].
  - rewrite Cut_slash_cons. destruct (Ascii.eqb_spec c "/") as [->|Hne].
    + by intros [= <- <- <-].
    + destruct (strings.Cut s "/") as [[b a] f] eqn:Hcut.
      specialize (IH _ _ _ eq_refl). destruct f.
      * intros [= <- <- <-]. destruct IH as [-> Hb]. split; [done|].
        by apply segment_cons.
      * intros [= <- <- <-]. destruct IH as (_ & _ & Hs). split_and!; [done..|].
        by apply segment_cons.
Qed.

(** ** [stdlibPackage] *)

Lemma stdlibPackage_shaped `{Lib} (filename x y p : string) :
  stdlibShape filename x y p →
  stdlibPackage filename = if String.eqb (path_Dir p) "." then "" else path_Dir p.
Proof.
  intros (Hx & Hy & ->). unfold stdlibPackage.
  rewrite Cut_append_slash by done.
  rewrite (proj2 (HasSuffix_iff _ _)) by eauto. simpl.
  rewrite Cut_append_slash by done.
  by rewrite (proj2 (HasSuffix_iff _ _)) by eauto.
Qed.

Lemma stdlibPackage_inv `{Lib} (filename : string) :
  stdlibPackage filename ≠ "" →
  ∃ x y p, stdlibShape filename x y p ∧ path_Dir p ≠ "." ∧
           stdlibPackage filename = path_Dir p.
Proof.
  unfold stdlibPackage.
  destruct (strings.Cut filename "/") as [[dir rest] found] eqn:Hcut.
  destruct (strings.HasSuffix dir "stdlib") eqn:Hdir; simpl; [|done].
  destruct (strings.Cut rest "/") as [[dir' rest'] found'] eqn:Hcut'.
  destruct (strings.HasSuffix dir' "minor") eqn:Hdir'; simpl; [|done].
  destruct (String.eqb_spec (path_Dir rest') ".") as [|Hdot]; [done|]. intros _.
  apply HasSuffix_iff in Hdir as [x ->], Hdir' as [y ->].
  apply Cut_slash_inv in Hcut.
  destruct found; last first.
  { destruct Hcut as (_ & -> & _). rewrite Cut_slash_nil in Hcut'.
    injection Hcut' as Hy _ _. by destruct y. }
  apply Cut_slash_inv in Hcut'.
  destruct found'; last first.
  { destruct Hcut' as (_ & -> & _). by rewrite path_Dir_empty in Hdot. }
  destruct Hcut as [-> Hx], Hcut' as [-> Hy].
  exists x, y, rest'. by repeat split.
Qed.

(** C5.  [stdlibPackage filename] is a non-empty package [pkg] exactly when
    [filename] is [<X>stdlib/<Y>minor/<P>] (two segments with the literal
    suffixes, then the remainder [P]) and [pkg] is [path.Dir P], different
    from "."; for every other [filename] the result is the empty string. *)
Theorem stdlibPackage_spec `{Lib} (filename : string) :
  (∀ pkg, pkg ≠ "" →
     (stdlibPackage filename = pkg ↔
      ∃ x y p, stdlibShape filename x y p ∧ path_Dir p = pkg ∧ pkg ≠ ".")) ∧
  ((¬ ∃ x y p, stdlibShape filename x y p ∧ path_Dir p ≠ "" ∧ path_Dir p ≠ ".") →
     stdlibPackage filename = "").
Proof.
  split.
  - intros pkg Hpkg. split.
    + intros Heq. destruct (stdlibPackage_inv filename) as (x & y & p & Hs & Hdot & Hp);
        [congruence|].
      exists x, y, p. split_and!; [done|congruence|congruence].
    + intros (x & y & p & Hs & <- & Hdot).
      rewrite (stdlibPackage_shaped _ _ _ _ Hs).
      by destruct (String.eqb_spec (path_Dir p) ".").
  - intros Hno. destruct (decide (stdlibPackage filename = "")) as [|Hne]; [done|].
    destruct (stdlibPackage_inv filename Hne) as (x & y & p & Hs & Hdot & Hp).
    destruct Hno. exists x, y, p. split_and!; [done| |done]. congruence.
Qed.

(** ** Merging the link references *)

Lemma mergeLinks_list_ok (filename : string) (links : gmap string Link)
    (kvs : list (string * Link)) :
  NoDup kvs.*1 →
  (∀ key, key ∈ kvs.*1 → links !! key = None) →
  mergeLinks filename links kvs = inr (list_to_map kvs ∪ links).
Proof.
  revert links. induction kvs as [|[key link] kvs IH]; intros links Hnd Hfresh; simpl.
  - by rewrite (left_id_L ∅ (∪)).
  - apply NoDup_cons in Hnd as [Hkey Hnd].
    rewrite Hfresh by set_solver.
    rewrite IH; [|done|].
    + f_equal. rewrite <-insert_union_l.
      by rewrite insert_union_r by by apply not_elem_of_list_to_map_1.
    + intros key' Hkey'. rewrite lookup_insert_ne by set_solver.
      apply Hfresh. set_solver.
Qed.

Lemma mergeLinks_list_err (filename : string) (links : gmap string Link)
    (kvs : list (string * Link)) (e : error) :
  NoDup kvs.*1 →
  mergeLinks filename links kvs = inl e →
  ∃ key, e = ErrDuplicateLink key filename ∧ key ∈ kvs.*1 ∧ is_Some (links !! key).
Proof.
  revert links. induction kvs as [|[key link] kvs IH]; intros links Hnd; simpl; [done|].
  apply NoDup_cons in Hnd as [Hkey Hnd].
  destruct (links !! key) eqn:Hl.
  - intros [= <-]. exists key. split_and!; [done|set_solver|by rewrite Hl].
  - intros (key' & -> & Hin & Hsome)%IH; [|done].
    exists key'. split_and!; [done|set_solver|].
    rewrite lookup_insert_ne in Hsome; [done|]. set_solver.
Qed.

Lemma mergeLinks_list_dup (filename : string) (links : gmap string Link)
    (kvs : list (string * Link)) (key : string) :
  key ∈ kvs.*1 → is_Some (links !! key) →
  ∃ e, mergeLinks filename links kvs = inl e.
Proof.
  revert links. induction kvs as [|[key' link] kvs IH]; intros links Hin Hsome; simpl.
  - set_solver.
  - destruct (links !! key') eqn:Hl; [by eexists|].
    apply IH.
    + simpl in Hin. apply elem_of_cons in Hin as [->|]; [|done].
      rewrite Hl in Hsome. by destruct Hsome.
    + destruct (decide (key' = key)) as [->|].
      * rewrite lookup_insert_eq. by eexists.
      * by rewrite lookup_insert_ne.
Qed.

Section range.
Context `{Lib}.

Lemma rangeLinks_NoDup (m : gmap string Link) : NoDup (rangeLinks m).*1.
Proof. rewrite rangeLinks_perm. apply NoDup_fst_map_to_list. Qed.

Lemma elem_of_rangeLinks (m : gmap string Link) (key : string) :
  key ∈ (rangeLinks m).*1 ↔ is_Some (m !! key).
Proof.
  rewrite rangeLinks_perm, list_elem_of_fmap. split.
  - intros ([k l] & -> & Hin). apply elem_of_map_to_list in Hin. by eexists.
  - intros [l Hl]. exists (key, l). split; [done|]. by apply elem_of_map_to_list.
Qed.

Lemma list_to_map_rangeLinks (m : gmap string Link) : list_to_map (rangeLinks m) = m.
Proof.
  rewrite <-(list_to_map_to_list m) at 2.
  apply list_to_map_proper; [apply rangeLinks_NoDup|apply rangeLinks_perm].
Qed.

Lemma mergeLinks_ok (filename : string) (acc new : gmap string Link) :
  (∀ key, is_Some (new !! key) → acc !! key = None) →
  mergeLinks filename acc (rangeLinks new) = inr (new ∪ acc).
Proof.
  intros Hfresh. rewrite mergeLinks_list_ok.
  - by rewrite list_to_map_rangeLinks.
  - apply rangeLinks_NoDup.
  - intros key Hkey. by apply Hfresh, elem_of_rangeLinks.
Qed.

Lemma mergeLinks_err (filename : string) (acc new : gmap string Link) (e : error) :
  mergeLinks filename acc (rangeLinks new) = inl e →
  ∃ key, e = ErrDuplicateLink key filename ∧
         is_Some (acc !! key) ∧ is_Some (new !! key).
Proof.
  intros (key & -> & Hin & Hsome)%mergeLinks_list_err; [|apply rangeLinks_NoDup].
  exists key. split_and!; [done..|]. by apply elem_of_rangeLinks.
Qed.

Lemma mergeLinks_dup (filename : string) (acc new : gmap string Link) (key : string) :
  is_Some (acc !! key) → is_Some (new !! key) →
  ∃ e, mergeLinks filename acc (rangeLinks new) = inl e.
Proof.
  intros Hacc Hnew. eapply mergeLinks_list_dup; [|done].
  by apply elem_of_rangeLinks.
Qed.

Lemma mergeLinks_inr (filename : string) (acc new links : gmap string Link) :
  mergeLinks filename acc (rangeLinks new) = inr links →
  links = new ∪ acc ∧ ∀ key, is_Some (new !! key) → acc !! key = None.
Proof.
  intros Hm.
  assert (∀ key, is_Some (new !! key) → acc !! key = None) as Hfresh.
  { intros key Hnew. destruct (acc !! key) eqn:Hacc; [|done].
    destruct (mergeLinks_dup filename acc new key) as [e He]; [by eexists|done|].
    congruence. }
  split; [|done]. rewrite mergeLinks_ok in Hm by done. congruence.
Qed.
End range.

(** ** One file of the loop of [Merge] *)

Section fragment.
Context `{Lib}.

Lemma mergeFragment_skip (filename : string) (newdoc : Document) (st : MergeState) :
  Blocks newdoc = [] → mergeFragment filename newdoc st = inr st.
Proof. intros Hnew. unfold mergeFragment. destruct st. by rewrite Hnew. Qed.

Lemma mergeFragment_first (filename : string) (newdoc doc : Document) (prevPkg : string) :
  Blocks doc = [] → Blocks newdoc ≠ [] →
  mergeFragment filename newdoc (doc, prevPkg) =
    withLinks filename doc newdoc (nonEmptyBlocks (Blocks newdoc)) prevPkg.
Proof.
  intros Hdoc Hnew. unfold mergeFragment, withLinks.
  destruct (Blocks newdoc) as [|first rest] eqn:Hblocks; [done|].
  by rewrite Hdoc.
Qed.

Lemma last_packageHeading (filename prevPkg : string) (acc : list Block) (lb : Block) :
  last acc = Some lb →
  ∃ lb', last (acc ++ packageHeading filename prevPkg (EndLine (Pos lb))) = Some lb' ∧
         EndLine (Pos lb) ≤ EndLine (Pos lb') ∧
         (packageHeading filename prevPkg (EndLine (Pos lb)) = [] → lb' = lb).
Proof.
  intros Hlast. unfold packageHeading. case_match.
  - eexists. rewrite last_snoc. split_and!; [done|simpl; lia|done].
  - exists lb. by rewrite app_nil_r.
Qed.

Lemma mergeFragment_next (filename : string) (newdoc doc : Document)
    (prevPkg : string) (lb first : Block) :
  last (Blocks doc) = Some lb → head (Blocks newdoc) = Some first →
  ∃ lb',
    last (Blocks doc ++ packageHeading filename prevPkg (EndLine (Pos lb))) = Some lb' ∧
    mergeFragment filename newdoc (doc, prevPkg) =
      withLinks filename doc newdoc
        ((Blocks doc ++ packageHeading filename prevPkg (EndLine (Pos lb))) ++
         nonEmptyBlocks
           (map (λ b, addLines b (EndLine (Pos lb') + 2 - StartLine (Pos first)))
              (Blocks newdoc)))
        (stdlibPackage filename).
Proof.
  intros Hlast Hfirst.
  destruct (last_packageHeading filename prevPkg _ _ Hlast) as (lb' & Hlb' & _).
  exists lb'. split; [done|].
  unfold mergeFragment, withLinks, lastBlock. rewrite Hlast.
  destruct (Blocks newdoc) as [|first' rest] eqn:Hblocks; [done|].
  injection Hfirst as ->.
  unfold packageHeading in Hlb'.
  destruct (negb (String.eqb (stdlibPackage filename) "") &&
            negb (String.eqb (stdlibPackage filename) prevPkg)) eqn:Hcond.
  - rewrite Hlb'. unfold packageHeading. rewrite Hcond. reflexivity.
  - rewrite app_nil_r in Hlb'. rewrite Hlb'. unfold packageHeading. rewrite Hcond.
    by rewrite app_nil_r.
Qed.

Lemma nonEmptyBlocks_addLines (bs : list Block) (n : Z) :
  nonEmptyBlocks (map (λ b, addLines b n) bs) = map (λ b, addLines b n) (nonEmptyBlocks bs).
Proof.
  unfold nonEmptyBlocks. induction bs as [|b bs IH]; [done|]. simpl.
  destruct (isEmpty b) eqn:Hb.
  - rewrite !filter_cons_False; [done|by rewrite Hb|by rewrite isEmpty_addLines, Hb].
  - rewrite !filter_cons_True; [|done|by rewrite isEmpty_addLines]. simpl. by rewrite IH.
Qed.
End fragment.

Section fragment_positions.
Context `{Lib}.

Lemma withLinks_inr (filename : string) (doc newdoc : Document) (blocks : list Block)
    (prevPkg : string) (st : MergeState) :
  withLinks filename doc newdoc blocks prevPkg = inr st →
  st = (mkDocument blocks (Links newdoc ∪ Links doc), prevPkg) ∧
  ∀ key, is_Some (Links newdoc !! key) → Links doc !! key = None.
Proof.
  unfold withLinks.
  destruct (mergeLinks filename (Links doc) (rangeLinks (Links newdoc))) as [|links] eqn:Hm;
    [done|].
  apply mergeLinks_inr in Hm as [-> Hfresh]. by intros [= <-].
Qed.

Lemma withLinks_inl (filename : string) (doc newdoc : Document) (blocks : list Block)
    (prevPkg : string) (e : error) :
  withLinks filename doc newdoc blocks prevPkg = inl e →
  ∃ key, e = ErrDuplicateLink key filename ∧
         is_Some (Links doc !! key) ∧ is_Some (Links newdoc !! key).
Proof.
  unfold withLinks.
  destruct (mergeLinks filename (Links doc) (rangeLinks (Links newdoc))) as [e'|] eqn:Hm;
    [|done].
  intros [= <-]. by apply mergeLinks_err in Hm.
Qed.

Lemma spaced_addLines (bs : list Block) (n : Z) :
  spaced bs → spaced (map (λ b, addLines b n) bs).
Proof.
  unfold spaced. induction 1 as [|b bs Hbs IH Hhd]; simpl; constructor; [done|].
  destruct Hhd; simpl; constructor. by apply follows_addLines.
Qed.

Lemma spaced_packageHeading (filename prevPkg : string) (acc : list Block) (lb : Block) :
  spaced acc → last acc = Some lb →
  spaced (acc ++ packageHeading filename prevPkg (EndLine (Pos lb))).
Proof.
  intros Hacc Hlast. unfold packageHeading. case_match; [|by rewrite app_nil_r].
  apply Sorted_app_junction. split_and!; [done|by repeat constructor|].
  intros x y Hx [= <-]. rewrite Hlast in Hx. injection Hx as <-.
  unfold follows, endsBefore. simpl. lia.
Qed.

Lemma mergeFragment_spaced (filename : string) (newdoc : Document) (st st' : MergeState) :
  spaced (Blocks st.1) → orderedFragment newdoc →
  mergeFragment filename newdoc st = inr st' →
  spaced (Blocks st'.1).
Proof.
  destruct st as [doc prevPkg]. intros Hdoc [Hnew Hstart]. simpl in Hdoc.
  destruct (head (Blocks newdoc)) as [first|] eqn:Hfirst; last first.
  { apply head_None in Hfirst. rewrite mergeFragment_skip by done. by intros [= <-]. }
  destruct (last (Blocks doc)) as [lb|] eqn:Hlast.
  - destruct (mergeFragment_next filename newdoc doc prevPkg lb first)
      as (lb' & Hlb' & ->); [done..|].
    intros [-> _]%withLinks_inr. simpl.
    rewrite nonEmptyBlocks_addLines.
    apply Sorted_app_junction. split_and!.
    + by apply spaced_packageHeading.
    + by apply spaced_addLines.
    + intros x y Hx Hy. rewrite Hlb' in Hx. injection Hx as <-.
      destruct (nonEmptyBlocks (Blocks newdoc)) as [|b bs] eqn:Hkept; [done|].
      injection Hy as <-. specialize (Hstart first b eq_refl eq_refl).
      unfold follows, endsBefore. rewrite Pos_addLines. simpl. lia.
  - apply last_None in Hlast. rewrite mergeFragment_first; [|done|].
    + by intros [-> _]%withLinks_inr.
    + intros Hnil. by rewrite Hnil in Hfirst.
Qed.

Lemma mergeLoop_spaced (fsys : FS) (filenames : list string) (st st' : MergeState) :
  (∀ path data, readFile fsys path = inr data → orderedFragment (Parse data)) →
  spaced (Blocks st.1) →
  mergeLoop fsys filenames st = inr st' →
  spaced (Blocks st'.1).
Proof.
  intros Hfs. revert st. induction filenames as [|filename rest IH]; intros st Hst; simpl.
  - by intros [= <-].
  - unfold parseFile. destruct (readFile fsys filename) as [|data] eqn:Hread; [done|].
    destruct (mergeFragment filename (Parse data) st) as [|st1] eqn:Hfrag; [done|].
    apply IH. eapply mergeFragment_spaced; [done| |done]. eauto.
Qed.
End fragment_positions.

(** ** The link references across the files *)

Section links_across.
Context `{Lib}.

Lemma mergeFragment_cases (filename : string) (newdoc doc : Document) (prevPkg : string) :
  mergeFragment filename newdoc (doc, prevPkg) = inr (doc, prevPkg) ∧ Blocks newdoc = [] ∨
  ∃ blocks prevPkg',
    mergeFragment filename newdoc (doc, prevPkg) =
      withLinks filename doc newdoc blocks prevPkg'.
Proof.
  destruct (head (Blocks newdoc)) as [first|] eqn:Hfirst; last first.
  { apply head_None in Hfirst. left. by rewrite mergeFragment_skip. }
  right. destruct (last (Blocks doc)) as [lb|] eqn:Hlast.
  - destruct (mergeFragment_next filename newdoc doc prevPkg lb first)
      as (lb' & _ & ->); [done..|]. eauto.
  - apply last_None in Hlast. rewrite mergeFragment_first; [eauto|done|].
    intros Hnil. by rewrite Hnil in Hfirst.
Qed.

Lemma mergeFragment_links (filename : string) (newdoc : Document) (st st' : MergeState)
    (key : string) :
  mergeFragment filename newdoc st = inr st' →
  is_Some (Links st'.1 !! key) →
  is_Some (Links st.1 !! key) ∨ is_Some (Links newdoc !! key).
Proof.
  destruct st as [doc prevPkg].
  destruct (mergeFragment_cases filename newdoc doc prevPkg)
    as [[-> _]|(blocks & p & ->)].
  - intros [= <-]. auto.
  - intros [-> _]%withLinks_inr. simpl. rewrite lookup_union_is_Some. tauto.
Qed.

Lemma mergeFragment_inl (filename : string) (newdoc : Document) (st : MergeState)
    (e : error) :
  mergeFragment filename newdoc st = inl e →
  ∃ key, e = ErrDuplicateLink key filename ∧
         is_Some (Links st.1 !! key) ∧ is_Some (Links newdoc !! key).
Proof.
  destruct st as [doc prevPkg].
  destruct (mergeFragment_cases filename newdoc doc prevPkg)
    as [[-> _]|(blocks & p & ->)]; [done|].
  apply withLinks_inl.
Qed.

Lemma mergeLoop_duplicate (fsys : FS) (rest pre : list string) (st : MergeState)
    (key f : string) :
  (∀ k, is_Some (Links st.1 !! k) → heldBy fsys pre k) →
  mergeLoop fsys rest st = inl (ErrDuplicateLink key f) →
  ∃ mid post data,
    rest = mid ++ f :: post ∧ readFile fsys f = inr data ∧
    is_Some (Links (Parse data) !! key) ∧ heldBy fsys (pre ++ mid) key.
Proof.
  revert pre st. induction rest as [|filename rest IH]; intros pre st Hheld; simpl; [done|].
  unfold parseFile. destruct (readFile fsys filename) as [|data] eqn:Hread; [done|].
  destruct (mergeFragment filename (Parse data) st) as [e|st1] eqn:Hfrag.
  - intros [= ->]. apply mergeFragment_inl in Hfrag as (key' & [= <- <-] & Hacc & Hnew).
    exists [], rest, data. rewrite app_nil_r. auto.
  - intros Hloop. apply (IH (pre ++ [filename])) in Hloop
      as (mid & post & data' & -> & Hread' & Hnew & Hheld').
    + exists (filename :: mid), post, data'.
      rewrite <-app_assoc in Hheld'. auto.
    + intros k [Hk|Hk]%(mergeFragment_links _ _ _ _ _ Hfrag).
      * destruct (Hheld k Hk) as (f' & d' & ? & ? & ?).
        exists f', d'. split_and!; [set_solver|done..].
      * exists filename, data. split_and!; [set_solver|done..].
Qed.
End links_across.

(** ** The claims on the loop of [Merge] *)

(** C2, as the code has it.  Folding the links of a fragment into the
    accumulator fails exactly when the accumulator holds an entry, equal or
    not, under a key of the fragment; the error names such a key and the
    file being folded; with no such key the result is the accumulator with
    every entry of the fragment inserted.  When [Merge] fails so, the file
    the error names comes, in merge order, after a file that holds the key
    too. *)
Theorem mergeLinks_duplicate `{Lib} (fsys : FS) (filename : string)
    (acc new : gmap string Link) :
  ((∃ e, mergeLinks filename acc (rangeLinks new) = inl e) ↔
   (∃ key, is_Some (acc !! key) ∧ is_Some (new !! key))) ∧
  (∀ e, mergeLinks filename acc (rangeLinks new) = inl e →
        ∃ key, e = ErrDuplicateLink key filename ∧
               is_Some (acc !! key) ∧ is_Some (new !! key)) ∧
  ((∀ key, is_Some (new !! key) → acc !! key = None) →
   mergeLinks filename acc (rangeLinks new) = inr (new ∪ acc)) ∧
  (∀ key, Merge fsys = inl (ErrDuplicateLink key filename) →
     ∃ pre post data,
       sortedMarkdownFilenames fsys = inr (pre ++ filename :: post) ∧
       readFile fsys filename = inr data ∧
       is_Some (Links (Parse data) !! key) ∧
       heldBy fsys pre key).
Proof.
  split_and!.
  - split.
    + intros [e (key & _ & ? & ?)%mergeLinks_err]. eauto.
    + intros (key & Hacc & Hnew). by eapply mergeLinks_dup.
  - intros e. apply mergeLinks_err.
  - apply mergeLinks_ok.
  - intros key. unfold Merge.
    destruct (sortedMarkdownFilenames fsys) as [|filenames] eqn:Hsorted.
    { unfold sortedMarkdownFilenames in Hsorted.
      destruct (walkMarkdown (walkEntries fsys) []) as [err|] eqn:Hwalk; [|done].
      intros [= ->]. injection Hsorted as ->.
      exfalso. clear -Hwalk. revert Hwalk. generalize (@nil string).
      induction (walkEntries fsys) as [|e es IH]; intros acc; simpl; [done|].
      destruct (entryErr e); [done|]. case_match; apply IH. }
    destruct (mergeLoop fsys filenames (mkDocument [] ∅, "")) as [e|[doc p]] eqn:Hloop.
    + intros [= ->].
      apply (mergeLoop_duplicate _ _ []) in Hloop as (mid & post & data & -> & ? & ? & ?).
      * exists mid, post, data. auto.
      * simpl. intros k. rewrite lookup_empty. by intros [? ?].
    + unfold finishMerge. repeat case_match; done.
Qed.

(** C3.  Folding a fragment with at least one block into an accumulator with
    at least one block: with [lb'] the last block of the accumulator (after
    the package heading, when one is inserted) and [first] the first block of
    the fragment, empty or not, [delta] is [EndLine lb' + 2 - StartLine first];
    every top-level block of the fragment has [delta] added to its start and
    end line; the shifted blocks other than [Empty] ones are appended, in
    order, and the [Empty] ones are dropped. *)
Theorem mergeFragment_shift `{Lib} (filename : string) (newdoc doc : Document)
    (prevPkg : string) (lb first : Block) :
  last (Blocks doc) = Some lb →
  head (Blocks newdoc) = Some first →
  ∃ (lb' : Block) (delta : Z) (shifted : list Block),
    last (Blocks doc ++ packageHeading filename prevPkg (EndLine (Pos lb))) = Some lb' ∧
    (packageHeading filename prevPkg (EndLine (Pos lb)) = [] → lb' = lb) ∧
    delta = EndLine (Pos lb') + 2 - StartLine (Pos first) ∧
    shifted = map (λ b, addLines b delta) (Blocks newdoc) ∧
    Forall2 (λ b b', Pos b' = mkPosition (StartLine (Pos b) + delta) (EndLine (Pos b) + delta) ∧
                     setPosition b' (Pos b) = b)
            (Blocks newdoc) shifted ∧
    mergeFragment filename newdoc (doc, prevPkg) =
      match mergeLinks filename (Links doc) (rangeLinks (Links newdoc)) with
      | inl err => inl err
      | inr links =>
          inr (mkDocument
                 ((Blocks doc ++ packageHeading filename prevPkg (EndLine (Pos lb))) ++
                  filter (λ b, isEmpty b = false) shifted)
                 links,
               stdlibPackage filename)
      end.
Proof.
  intros Hlast Hfirst.
  destruct (mergeFragment_next filename newdoc doc prevPkg lb first)
    as (lb' & Hlb' & Heq); [done..|].
  destruct (last_packageHeading filename prevPkg _ _ Hlast) as (lb'' & Hlb'' & _ & Hsame).
  rewrite Hlb' in Hlb''. injection Hlb'' as <-.
  exists lb', (EndLine (Pos lb') + 2 - StartLine (Pos first)), 
    (map (λ b, addLines b (EndLine (Pos lb') + 2 - StartLine (Pos first))) (Blocks newdoc)).
  split_and!; [done..| |done].
  apply Forall2_fmap_r, Forall_Forall2_diag, Forall_forall. intros b _.
  split; [apply Pos_addLines|].
  by destruct b as [[] ? ?|[[] ?]|[] ?|[] ?|[] ?|[] ?|[]|[] ?|[] ?].
Qed.

(** C4.  Folding a fragment with at least one block into an accumulator with
    at least one block, for a file of package [pkg]: when [pkg] is non-empty
    and differs from [prevPkg], the accumulator first receives a level-4
    heading whose text is one link with label [pkg] and target
    ["/pkg/" ++ pkg ++ "/"], on the line two after the end of its last block,
    and then the blocks of the fragment; otherwise it receives those blocks
    only.  Either way [prevPkg] becomes [pkg], so the next file, if it is of
    the same package, gets no heading. *)
Theorem mergeFragment_package_heading `{Lib} (filename : string) (newdoc doc : Document)
    (prevPkg : string) (lb first : Block) :
  last (Blocks doc) = Some lb →
  head (Blocks newdoc) = Some first →
  let pkg := stdlibPackage filename in
  let line := EndLine (Pos lb) + 2 in
  let pos := mkPosition line line in
  let h := Heading pos 4
             (mkText pos [InlineLink (mkLink [Plain pkg] ("/pkg/" +:+ pkg +:+ "/") "")]) in
  ∃ (delta : Z),
    let added := nonEmptyBlocks (map (λ b, addLines b delta) (Blocks newdoc)) in
    mergeFragment filename newdoc (doc, prevPkg) =
      match mergeLinks filename (Links doc) (rangeLinks (Links newdoc)) with
      | inl err => inl err
      | inr links =>
          inr (mkDocument
                 (Blocks doc ++
                  (if bool_decide (pkg ≠ "" ∧ pkg ≠ prevPkg) then [h] else []) ++ added)
                 links,
               pkg)
      end ∧
    ∀ (doc1 : Document) (prevPkg1 filename2 : string) (newdoc2 : Document) (first2 : Block),
      mergeFragment filename newdoc (doc, prevPkg) = inr (doc1, prevPkg1) →
      stdlibPackage filename2 = pkg →
      head (Blocks newdoc2) = Some first2 →
      ∃ (delta2 : Z),
        mergeFragment filename2 newdoc2 (doc1, prevPkg1) =
          match mergeLinks filename2 (Links doc1) (rangeLinks (Links newdoc2)) with
          | inl err => inl err
          | inr links =>
              inr (mkDocument
                     (Blocks doc1 ++
                      nonEmptyBlocks (map (λ b, addLines b delta2) (Blocks newdoc2)))
                     links,
                   pkg)
          end.
Proof.
  intros Hlast Hfirst pkg line pos h.
  assert (∀ p, packageHeading filename p (EndLine (Pos lb)) =
               if bool_decide (pkg ≠ "" ∧ pkg ≠ p) then [h] else []) as Hh.
  { intros p. unfold packageHeading. fold pkg.
    destruct (String.eqb_spec pkg "") as [He|He], (String.eqb_spec pkg p) as [Hp|Hp]; simpl;
      (rewrite bool_decide_eq_false_2 by tauto) || (rewrite bool_decide_eq_true_2 by tauto);
      done. }
  destruct (mergeFragment_next filename newdoc doc prevPkg lb first)
    as (lb' & Hlb' & Heq); [done..|].
  exists (EndLine (Pos lb') + 2 - StartLine (Pos first)). split.
  { rewrite Heq. unfold withLinks. by rewrite Hh, <-app_assoc. }
  intros doc1 prevPkg1 filename2 newdoc2 first2 Hstep Hpkg2 Hfirst2.
  rewrite Heq in Hstep. clear Heq.
  set (blocks1 := (Blocks doc ++ packageHeading filename prevPkg (EndLine (Pos lb))) ++ _)
    in Hstep.
  apply withLinks_inr in Hstep as [Hst _]. injection Hst as -> ->.
  destruct (last blocks1) as [lb1|] eqn:Hlb1; last first.
  { apply last_None, app_eq_nil in Hlb1 as [[Hnil _]%app_eq_nil _].
    by rewrite Hnil in Hlast. }
  destruct (mergeFragment_next filename2 newdoc2
              (mkDocument blocks1 (Links newdoc ∪ Links doc)) (stdlibPackage filename)
              lb1 first2)
    as (lb2 & Hlb2 & Heq2); [done..|].
  exists (EndLine (Pos lb2) + 2 - StartLine (Pos first2)).
  rewrite Heq2. unfold withLinks.
  assert (packageHeading filename2 (stdlibPackage filename) (EndLine (Pos lb1)) = []) as ->.
  { unfold packageHeading. rewrite Hpkg2. fold pkg. rewrite String.eqb_refl.
    by rewrite andb_false_r. }
  by rewrite app_nil_r, Hpkg2.
Qed.

(** ** The end of [Merge] *)

Lemma finishMerge_eq (doc : Document) :
  finishMerge doc =
  inr (mkDocument
         (removeEmptySections (Blocks doc) ++
          trailingEmpty (removeEmptySections (Blocks doc)) (Links doc))
         (Links doc)).
Proof.
  unfold finishMerge, trailingEmpty, lastBlock.
  destruct (last (removeEmptySections (Blocks doc))) as [lb|] eqn:Hlast.
  - rewrite (bool_decide_eq_true_2 (_ ≠ [])); [|intros Hnil; by rewrite Hnil in Hlast].
    simpl. case_bool_decide; [done|]. by rewrite app_nil_r.
  - apply last_None in Hlast. rewrite Hlast. by rewrite bool_decide_eq_false_2 by auto.
Qed.

(** C6, as the code has it.  For a tree whose one Markdown file parses to a
    fragment with at least one block, no section of whose kept blocks is
    empty, [Merge] returns the blocks of the fragment other than the [Empty]
    ones, unchanged, then a blank line when the fragment has links; the link
    map is that of the fragment. *)
Theorem Merge_single_fragment `{Lib} (fsys : FS) (filename data : string) :
  walkMarkdown (walkEntries fsys) [] = inr [filename] →
  readFile fsys filename = inr data →
  Blocks (Parse data) ≠ [] →
  noEmptySections (nonEmptyBlocks (Blocks (Parse data))) →
  Merge fsys =
    inr (mkDocument
           (nonEmptyBlocks (Blocks (Parse data)) ++
            trailingEmpty (nonEmptyBlocks (Blocks (Parse data))) (Links (Parse data)))
           (Links (Parse data))).
Proof.
  intros Hwalk Hread Hblocks [Hdeeper Hlast].
  unfold Merge, sortedMarkdownFilenames. rewrite Hwalk.
  change (merge_sort String.le [filename]) with [filename].
  cbn [mergeLoop]. unfold parseFile. rewrite Hread.
  rewrite mergeFragment_first by done.
  unfold withLinks. cbn [Links Blocks].
  rewrite mergeLinks_ok by (intros; apply lookup_empty).
  rewrite (right_id_L ∅ (∪)), finishMerge_eq. cbn [Links Blocks].
  rewrite removeEmptySections_fixed; [done..|].
  intros b Hb. rewrite Hb in Hlast. by destruct b.
Qed.

(** ** [sortedMarkdownFilenames] *)

Lemma walkMarkdown_ok (es : list WalkEntry) (acc : list string) :
  Forall (λ e, entryErr e = None) es →
  walkMarkdown es acc = inr (acc ++ (entryPath <$> filter isMarkdownFile es)).
Proof.
  revert acc. induction es as [|e es IH]; intros acc Hes; simpl.
  - by rewrite app_nil_r.
  - apply Forall_cons in Hes as [-> Hes].
    destruct (decide (isMarkdownFile e)) as [[Hdir Hmd]|Hno].
    + rewrite Hdir, Hmd. simpl. rewrite IH by done.
      rewrite filter_cons_True by done. by rewrite <-app_assoc.
    + rewrite filter_cons_False by done.
      destruct (negb (entryIsDir e) && strings.HasSuffix (entryPath e) ".md") eqn:Hc;
        [|by apply IH].
      apply andb_prop in Hc as [Hdir%negb_true_iff Hmd]. by destruct Hno.
Qed.

Lemma ascii_compare_refl (c : ascii) : Ascii.compare c c = Eq.
Proof. unfold Ascii.compare. apply N.compare_refl. Qed.

Lemma compare_common_prefix (p s t : string) :
  String.compare (p +:+ s) (p +:+ t) = String.compare s t.
Proof.
  induction p as [|c p IH]; [done|].
  change (String.compare (String c (p +:+ s)) (String c (p +:+ t)) = String.compare s t).
  simpl. by rewrite ascii_compare_refl.
Qed.

(** ** [CheckFragment] *)

(** Within a section the loop of [CheckFragment] overwrites [found] at every
    block: after a run of blocks that are not headings, [found] is the test
    of the last of them. *)
Lemma scanSections_section `{Lib} (cur : Block) (found : bool) (bs : list Block) (b : Block) :
  Forall (λ b, isHeading b = false) bs → isHeading b = false →
  scanSections cur found (bs ++ [b]) = (cur, hasContent b).
Proof.
  revert found. induction bs as [|x bs IH]; intros found Hbs Hb; simpl.
  - by rewrite Hb.
  - apply Forall_cons in Hbs as [-> Hbs]. by apply IH.
Qed.

(** C7, at the fragment [sentenceThenPlain]: its one section holds a block
    with a sentence, and [CheckFragment] rejects it all the same, naming the
    heading of that section, because the last block of the section has none. *)
Theorem CheckFragment_last_block_decides `{Lib} (data : string) :
  Parse data = sentenceThenPlain →
  TrimSpace "Title" = "Title" →
  PrintText (Plain "Title") = "Title" →
  PrintText (Plain "Some sentence.") = "Some sentence." →
  PrintText (Plain "No punctuation here") = "No punctuation here" →
  hasContent (paragraph 3 3 "Some sentence.") = true ∧
  CheckFragment data = Some (ErrIncompleteSection "Title").
Proof.
  intros Hparse Htrim Ht Hs Hn. split.
  - unfold hasContent. simpl. by rewrite Hs.
  - unfold CheckFragment. rewrite Hparse. simpl. rewrite !Ht.
    change ("Title" +:+ "") with "Title". rewrite Htrim. simpl.
    unfold hasContent. simpl. by rewrite Hn.
Qed.

(** ** The code on examples *)

(** C1 fails as stated: three headings on adjacent lines are pruned to one
    that lies above the paragraph before it; and the blank line that [Merge]
    appends starts inside a last block of more than three lines. *)
Lemma positions_not_monotone :
  (monotone exHeadings ∧ ¬ monotone (removeEmptySections exHeadings)) ∧
  (∃ doc, @Merge exLib (filesFS [("a.md", "intro")]) = inr doc ∧
          Blocks doc = [heading 1 1 2 "Title"; paragraph 3 6 "Some text.";
                        Empty (mkPosition 5 8)] ∧
          ¬ monotone (Blocks doc)).
Proof.
  split; [split|].
  - by_computation.
  - apply (bool_decide_eq_false_1 (monotone _)). by vm_compute.
  - eexists. split; [by vm_compute|]. split; [done|].
    apply (bool_decide_eq_false_1 (monotone _)). by vm_compute.
Qed.

(** C2 fails as stated: an accumulator that holds the very same entry under
    the key, not a different one, makes the fold fail too; two files with
    the same reference to the same target do not merge. *)
Lemma mergeLinks_same_entry :
  let acc : gmap string Link := {[ "go" := exLink ]} in
  let new : gmap string Link := {[ "go" := exLink ]} in
  mergeLinks "b.md" acc (@rangeLinks exLib new) = inl (ErrDuplicateLink "go" "b.md") ∧
  (¬ ∃ key l l', acc !! key = Some l ∧ new !! key = Some l' ∧ l ≠ l') ∧
  @Merge exLib (filesFS [("a.md", "intro"); ("b.md", "intro")]) =
    inl (ErrDuplicateLink "go" "b.md").
Proof.
  intros acc new. split_and!.
  - by vm_compute.
  - intros (key & l & l' & Hl & Hl' & Hne). subst acc new. congruence.
  - by vm_compute.
Qed.

(** C6 fails as stated: the one fragment [exIntro] has two blocks, no empty
    section and one link, and [Merge] returns three blocks. *)
Lemma Merge_single_fragment_adds_block :
  let fsys := filesFS [("a.md", "intro")] in
  walkMarkdown (walkEntries fsys) [] = inr ["a.md"] ∧
  readFile fsys "a.md" = inr "intro" ∧
  @Parse exLib "intro" = exIntro ∧
  noEmptySections (Blocks exIntro) ∧
  ∃ doc, @Merge exLib fsys = inr doc ∧ Links doc = Links exIntro ∧
         Blocks doc = Blocks exIntro ++ [Empty (mkPosition 5 8)] ∧
         Blocks doc ≠ Blocks exIntro.
Proof.
  intros fsys. split_and!; [done..| |].
  - split; [|done]. repeat constructor.
  - eexists. split_and!; [by vm_compute|done..].
Qed.

(** *** The theorems at concrete inputs *)

Lemma exLib_orderedFragment (data : string) : orderedFragment (@Parse exLib data).
Proof.
  change (@Parse exLib data) with
    (parseTable [("intro", exIntro); ("change", exChange); ("check", sentenceThenPlain)] data).
  cbn -[String.eqb].
  destruct (String.eqb "intro" data); [|destruct (String.eqb "change" data);
    [|destruct (String.eqb "check" data)]];
    (split; [by_computation|intros first b [= <-] [= <-]; simpl; lia]).
Defined.

Lemma mergeLinks_duplicate_witness :
  ∃ e, mergeLinks "b.md" {[ "go" := exLink ]} (@rangeLinks exLib {[ "go" := exLink ]}) = inl e.
Proof.
  apply (proj1 (@mergeLinks_duplicate exLib (filesFS []) "b.md" _ _)).
  exists "go". split; eexists; vm_compute; reflexivity.
Defined.

Lemma mergeFragment_shift_witness :
  ∃ delta st,
    delta = 7 ∧
    @mergeFragment exLib "b.md" exChange (exIntro, "") = inr st ∧
    Blocks st.1 =
      Blocks exIntro ++
      [Paragraph (mkPosition (2 + delta) (2 + delta)) (mkText (mkPosition 2 2) [Plain "A change."])].
Proof.
  destruct (@mergeFragment_shift exLib "b.md" exChange exIntro ""
              (paragraph 3 6 "Some text.") (Empty (mkPosition 1 1)) eq_refl eq_refl)
    as (lb' & delta & shifted & Hlb' & _ & Hdelta & Hshifted & _ & Heq).
  vm_compute in Hlb'. injection Hlb' as <-. vm_compute in Hdelta. subst delta shifted.
  exists 7. eexists. split; [done|]. split; [exact Heq|]. by vm_compute.
Defined.

Lemma mergeFragment_package_heading_witness :
  ∃ links rest,
    @mergeFragment exLib "6-stdlib/99-minor/net/http/1.md" exChange (exIntro, "") =
      inr (mkDocument
             (Blocks exIntro ++
              [Heading (mkPosition 8 8) 4
                 (mkText (mkPosition 8 8)
                    [InlineLink (mkLink [Plain "net/http"] "/pkg/net/http/" "")])] ++ rest)
             links,
           "net/http").
Proof.
  destruct (@mergeFragment_package_heading exLib "6-stdlib/99-minor/net/http/1.md"
              exChange exIntro "" (paragraph 3 6 "Some text.") (Empty (mkPosition 1 1))
              eq_refl eq_refl)
    as (delta & Heq & _).
  rewrite Heq. by eexists _, _.
Defined.

Lemma stdlibPackage_spec_witness :
  @stdlibPackage exLib "xstdlib/99-minor/net/http/1.md" = "net/http".
Proof.
  apply (proj1 (@stdlibPackage_spec exLib _) "net/http"); [done|].
  exists "x", "99-", "net/http/1.md". by split_and!.
Defined.

Lemma Merge_single_fragment_witness :
  @Merge exLib (filesFS [("a.md", "change")]) =
    inr (mkDocument [paragraph 2 2 "A change."] ∅).
Proof.
  apply (@Merge_single_fragment exLib (filesFS [("a.md", "change")]) "a.md" "change");
    [done..|].
  split; [|done]. repeat constructor.
Defined.

Lemma CheckFragment_last_block_decides_witness :
  @CheckFragment exLib "check" = Some (ErrIncompleteSection "Title").
Proof. by apply (@CheckFragment_last_block_decides exLib "check"). Defined.

Lemma removeEmptySections_keeps_nonHeadings_witness :
  Forall wfPos exSections ∧
  ∃ ds : list Z,
    length ds = length (nonHeadings exSections) ∧
    Forall (λ d, 0 ≤ d) ds ∧
    Sorted Z.le ds ∧
    nonHeadings (removeEmptySections exSections) =
      zip_with (λ b d, addLines b (- d)) (nonHeadings exSections) ds.
Proof.
  assert (Forall wfPos exSections) as Hwf.
  { repeat constructor; unfold wfPos; simpl; lia. }
  split; [done|]. exact (removeEmptySections_keeps_nonHeadings exSections Hwf).
Defined.

(** ** What [CheckFragment] accepts *)

Section check.
Context `{Lib}.

Lemma contentAtEnd_cons (found : bool) (b : Block) (pre : list Block) :
  contentAtEnd found (b :: pre) ↔
  contentAtEnd (negb (isHeading b) && hasContent b) pre.
Proof.
  unfold contentAtEnd. destruct pre as [|p pre].
  - simpl. rewrite andb_true_iff, negb_true_iff. done.
  - rewrite last_cons_cons. destruct (last (p :: pre)) eqn:Hlast; [done|].
    by apply last_None in Hlast.
Qed.

Lemma sectionsComplete_nil (found : bool) : sectionsComplete found [] ↔ found = true.
Proof.
  unfold sectionsComplete. split.
  - intros Hc. apply (Hc []). by left.
  - intros -> pre [->|(h & post & Heq & _)]; [done|]. by destruct pre.
Qed.

Lemma sectionsComplete_cons (found : bool) (b : Block) (bs : list Block) :
  sectionsComplete found (b :: bs) ↔
  (isHeading b = true → found = true) ∧
  sectionsComplete (negb (isHeading b) && hasContent b) bs.
Proof.
  unfold sectionsComplete. split.
  - intros Hc. split.
    + intros Hb. apply (Hc []). right. by exists b, bs.
    + intros pre Hpre. apply (proj1 (contentAtEnd_cons found b pre)), Hc.
      destruct Hpre as [->|(h & post & -> & Hh)]; [by left|].
      right. by exists h, post.
  - intros [Hb Hc] pre Hpre. destruct pre as [|x pre].
    + destruct Hpre as [|(h & post & [= <- <-] & Hh)]; [done|]. by apply Hb.
    + destruct Hpre as [[= -> ->]|(h & post & [= -> ->] & Hh)];
        apply (proj2 (contentAtEnd_cons found _ _)), Hc; [by left|].
      right. by exists h, post.
Qed.

Lemma scanSections_found (cur : Block) (found : bool) (bs : list Block) :
  (scanSections cur found bs).2 = true ↔ sectionsComplete found bs.
Proof.
  revert cur found. induction bs as [|b bs IH]; intros cur found; simpl.
  - by rewrite sectionsComplete_nil.
  - rewrite sectionsComplete_cons. destruct (isHeading b) eqn:Hb; simpl.
    + destruct found; simpl.
      * rewrite IH. naive_solver.
      * naive_solver.
    + rewrite IH. naive_solver.
Qed.

Lemma scanSections_incomplete (cur c : Block) (found : bool) (bs : list Block) :
  scanSections cur found bs = (c, false) →
  (c = cur ∧ ∃ body tail,
     bs = body ++ tail ∧ Forall (λ b, isHeading b = false) body ∧ atSectionEnd tail ∧
     ¬ contentAtEnd found body) ∨
  (∃ pre body tail,
     bs = pre ++ c :: body ++ tail ∧ isHeading c = true ∧ sectionsComplete found pre ∧
     Forall (λ b, isHeading b = false) body ∧ atSectionEnd tail ∧
     ¬ contentAtEnd false body).
Proof.
  revert cur found. induction bs as [|b bs IH]; intros cur found; simpl.
  - intros [= -> ->]. left. split; [done|]. exists [], []. by split_and!.
  - destruct (isHeading b) eqn:Hb.
    + destruct found; simpl.
      * intros [(-> & body & tail & -> & Hbody & Htail & Hno)
               |(pre & body & tail & -> & Hc & Hpre & Hbody & Htail & Hno)]%IH; right.
        -- exists [], body, tail. split_and!; [done..| |done|done|done].
           by apply sectionsComplete_nil.
        -- exists (b :: pre), body, tail. split_and!; [done..| |done|done|done].
           apply sectionsComplete_cons. by rewrite Hb.
      * intros [= -> ]. left. split; [done|]. exists [], (b :: bs).
        by split_and!.
    + intros [(-> & body & tail & -> & Hbody & Htail & Hno)
             |(pre & body & tail & -> & Hc & Hpre & Hbody & Htail & Hno)]%IH.
      * left. split; [done|]. exists (b :: body), tail. split_and!; [done| |done|].
        -- by constructor.
        -- rewrite contentAtEnd_cons, Hb. done.
      * right. exists (b :: pre), body, tail. split_and!; [done..| |done|done|done].
        apply sectionsComplete_cons. rewrite Hb. done.
Qed.
End check.

(** X1.  [CheckFragment] accepts a fragment exactly when it starts with a
    heading whose text is not blank and does not begin with '+', and every
    later heading, and the end of the fragment, comes directly after a block
    that is no heading and holds "TODO" or one of '.', '?', '!'.  (So the
    heading alone is rejected, and only the last block of a section counts.) *)
Theorem CheckFragment_accepts_iff `{Lib} (data : string) :
  CheckFragment data = None ↔
  ∃ h rest,
    Blocks (Parse data) = h :: rest ∧ isHeading h = true ∧
    TrimSpace (text h) ≠ "" ∧ headingTextMustMatch (text h) = true ∧
    sectionsComplete false rest.
Proof.
  unfold CheckFragment. destruct (Blocks (Parse data)) as [|h rest].
  { split; [done|]. by intros (? & ? & ? & _). }
  pose proof (scanSections_found h false rest) as Hf.
  destruct (isHeading h) eqn:Hh; simpl; [|split; [done|]; intros (? & ? & [= <- <-] & ? & _); congruence].
  destruct (String.eqb_spec (TrimSpace (text h)) "") as [Ht|Ht].
  { split; [done|]. intros (? & ? & [= <- <-] & _ & ? & _). congruence. }
  destruct (headingTextMustMatch (text h)) eqn:Hm; simpl;
    [|split; [done|]; intros (? & ? & [= <- <-] & _ & _ & ? & _); congruence].
  destruct (scanSections h false rest) as [cur found]. simpl in *.
  destruct found; simpl.
  - split; [|done]. intros _. exists h, rest. split_and!; [done..|]. by apply Hf.
  - split; [done|]. intros (? & ? & [= <- <-] & _ & _ & _ & Hc). by apply Hf in Hc.
Qed.

(** X2.  When [CheckFragment] reports an incomplete section, the heading it
    names starts the first section, in document order, whose last block has
    no content (or that has no block at all): the sections before it are
    complete, and the blocks from that heading to the next heading or the end
    are no headings and do not end in a block with content. *)
Theorem CheckFragment_names_first_incomplete `{Lib} (data t : string) :
  CheckFragment data = Some (ErrIncompleteSection t) →
  ∃ pre c body tail,
    Blocks (Parse data) = pre ++ c :: body ++ tail ∧
    isHeading c = true ∧ t = text c ∧
    (pre = [] ∨ ∃ h pre', pre = h :: pre' ∧ isHeading h = true ∧ sectionsComplete false pre') ∧
    Forall (λ b, isHeading b = false) body ∧ atSectionEnd tail ∧
    ¬ contentAtEnd false body.
Proof.
  unfold CheckFragment. destruct (Blocks (Parse data)) as [|h rest]; [done|].
  destruct (isHeading h) eqn:Hh; simpl; [|done].
  destruct (String.eqb (TrimSpace (text h)) ""); [done|].
  destruct (headingTextMustMatch (text h)); simpl; [|done].
  destruct (scanSections h false rest) as [cur found] eqn:Hscan.
  destruct found; simpl; [done|]. intros [= <-].
  apply scanSections_incomplete in Hscan
    as [(-> & body & tail & -> & Hbody & Htail & Hno)
       |(pre & body & tail & -> & Hc & Hpre & Hbody & Htail & Hno)].
  - exists [], h, body, tail. split_and!; auto.
  - exists (h :: pre), cur, body, tail. split_and!; [done..| |done|done|done].
    right. by exists h, pre.
Qed.

(** X3.  The checks of [CheckFragment] on the start of the fragment, in the
    order the code makes them: no block at all; a first block that is no
    heading; a heading with blank text; a heading whose text begins with
    '+'.  [CheckFragment] reports nothing but these and incomplete sections. *)
Theorem CheckFragment_leading_errors `{Lib} (data : string) :
  (CheckFragment data = Some ErrEmptyContent ↔ Blocks (Parse data) = []) ∧
  (CheckFragment data = Some ErrNoHeading ↔
     ∃ b rest, Blocks (Parse data) = b :: rest ∧ isHeading b = false) ∧
  (CheckFragment data = Some ErrEmptyHeading ↔
     ∃ h rest, Blocks (Parse data) = h :: rest ∧ isHeading h = true ∧
               TrimSpace (text h) = "") ∧
  (CheckFragment data = Some ErrNonMatchingHeading ↔
     ∃ h rest, Blocks (Parse data) = h :: rest ∧ isHeading h = true ∧
               TrimSpace (text h) ≠ "" ∧ headingTextMustMatch (text h) = false) ∧
  (∀ e, CheckFragment data = Some e →
        e = ErrEmptyContent ∨ e = ErrNoHeading ∨ e = ErrEmptyHeading ∨
        e = ErrNonMatchingHeading ∨ ∃ t, e = ErrIncompleteSection t).
Proof.
  unfold CheckFragment. destruct (Blocks (Parse data)) as [|h rest].
  { split_and!; naive_solver. }
  destruct (isHeading h) eqn:Hh; simpl.
  2:{ split_and!; try naive_solver;
        (split; [done|]; intros (? & ? & ? & ?); simplify_eq; destruct_and?; congruence). }
  destruct (String.eqb_spec (TrimSpace (text h)) "") as [Ht|Ht].
  { split_and!; try naive_solver;
      (split; [done|]; intros (? & ? & ? & ?); simplify_eq; destruct_and?; congruence). }
  destruct (headingTextMustMatch (text h)) eqn:Hm; simpl.
  2:{ split_and!; try naive_solver;
        (split; [done|]; intros (? & ? & ? & ?); simplify_eq; destruct_and?; congruence). }
  destruct (scanSections h false rest) as [cur found].
  destruct found; simpl; split_and!; try naive_solver;
    (split; [done|]; intros (? & ? & ? & ?); simplify_eq; destruct_and?; congruence).
Qed.

(** ** [headingIndex], [addLines], [text] *)

(** X4.  [headingIndex bs level] is the index of the first heading of [bs]
    at [level]: it is at most [len(bs)]; when it is less, the block there is
    a heading at [level]; no block before it is; and it is [len(bs)] exactly
    when [bs] has no heading at [level]. *)
Theorem headingIndex_spec (bs : list Block) (level : Z) :
  (headingIndex bs level ≤ length bs)%nat ∧
  (∀ b, bs !! headingIndex bs level = Some b →
        ∃ pos t, b = Heading pos level t) ∧
  (∀ i pos t, (i < headingIndex bs level)%nat → bs !! i ≠ Some (Heading pos level t)) ∧
  (headingIndex bs level = length bs ↔
   ∀ pos t, Heading pos level t ∉ bs).
Proof.
  induction bs as [|b bs (IHle & IHat & IHbefore & IHnone)]; simpl.
  { split_and!; [done..|]. split; [|done]. intros _ pos t. apply not_elem_of_nil. }
  destruct b as [pos lv t| | | | | | | |];
    try (split_and!; [lia|done| |];
         [intros [|i] pos' t' Hi; [done|]; simpl; apply IHbefore; lia
         |rewrite Nat.succ_inj_wd, IHnone; split;
            [intros Hno pos' t' [|Hin]%elem_of_cons; [done|by eapply Hno]
            |intros Hno pos' t' Hin; eapply Hno; by right]]).
  destruct (Z.eqb_spec lv level) as [->|Hne].
  - split_and!; [lia| | |].
    + intros b [= <-]. eauto.
    + intros i pos' t' Hi. lia.
    + split; [done|]. intros Hno. destruct (Hno pos t). by left.
  - split_and!; [lia|done| |].
    + intros [|i] pos' t' Hi; [simpl; congruence|]. simpl. apply IHbefore. lia.
    + rewrite Nat.succ_inj_wd, IHnone. split.
      * intros Hno pos' t' [?|Hin]%elem_of_cons; [congruence|by eapply Hno].
      * intros Hno pos' t' Hin. eapply Hno. by right.
Qed.

(** X5.  [addLines] moves the line range of a block and nothing else: adding
    [n] and then [-n] gives the block back, adding [n] and then [m] adds
    [n + m], and kind and text stay as they are; putting the old position
    back gives the old block. *)
Theorem addLines_round_trip `{Lib} (b : Block) (n : Z) :
  addLines (addLines b n) (- n) = b ∧
  (∀ m, addLines (addLines b n) m = addLines b (n + m)) ∧
  Pos (addLines b n) = mkPosition (StartLine (Pos b) + n) (EndLine (Pos b) + n) ∧
  text (addLines b n) = text b ∧
  isHeading (addLines b n) = isHeading b ∧
  isEmpty (addLines b n) = isEmpty b ∧
  setPosition (addLines b n) (Pos b) = b.
Proof.
  split_and!.
  - by rewrite addLines_addLines, Z.add_opp_diag_r, addLines_0.
  - intros m. apply addLines_addLines.
  - apply Pos_addLines.
  - by destruct b.
  - apply isHeading_addLines.
  - apply isEmpty_addLines.
  - by destruct b as [[] ? ?|[[] ?]|[] ?|[] ?|[] ?|[] ?|[]|[] ?|[] ?].
Qed.

(** *** Text of nested blocks *)

Lemma prefix_append (sub s t : string) :
  String.prefix sub s = true → String.prefix sub (s +:+ t) = true.
Proof.
  revert s. induction sub as [|c sub IH]; intros s; [intros _; destruct s, t; reflexivity|].
  destruct s as [|d s]; [done|].
  change (String d s +:+ t) with (String d (s +:+ t)). simpl.
  destruct (ascii_dec c d); [apply IH|done].
Qed.

Lemma Index_append_l (s t sub : string) :
  is_Some (strings.Index s sub) → is_Some (strings.Index (s +:+ t) sub).
Proof.
  induction s as [|c s IH].
  - destruct sub; [|by intros [? ?]].
    intros _. destruct t; eexists; reflexivity.
  - change (String c s +:+ t) with (String c (s +:+ t)). rewrite !Index_cons.
    destruct (String.prefix sub (String c s)) eqn:Hp.
    + intros _. change (String c (s +:+ t)) with (String c s +:+ t).
      by rewrite prefix_append.
    + intros [i Hi]. destruct (strings.Index s sub) as [j|] eqn:Hj; [|done].
      destruct IH as [k Hk]; [by eexists|].
      case_match; [by eexists|]. rewrite Hk. by eexists.
Qed.

Lemma Index_append_r (s t sub : string) :
  is_Some (strings.Index t sub) → is_Some (strings.Index (s +:+ t) sub).
Proof.
  intros Ht. induction s as [|c s [k Hk]]; [done|].
  change (String c s +:+ t) with (String c (s +:+ t)). rewrite Index_cons.
  case_match; [by eexists|]. rewrite Hk. by eexists.
Qed.

Lemma Contains_append (s t sub : string) :
  strings.Contains s sub || strings.Contains t sub = true →
  strings.Contains (s +:+ t) sub = true.
Proof.
  unfold strings.Contains. rewrite orb_true_iff, !bool_decide_eq_true.
  intros [?|?]; [by apply Index_append_l|by apply Index_append_r].
Qed.

Lemma ContainsAny_append (s t chars : string) :
  strings.ContainsAny (s +:+ t) chars =
  strings.ContainsAny s chars || strings.ContainsAny t chars.
Proof.
  induction s as [|c s IH]; [done|].
  change (String c s +:+ t) with (String c (s +:+ t)). simpl.
  by rewrite IH, orb_assoc.
Qed.

Section text.
Context `{Lib}.

Lemma text_blocksText (bs : list Block) :
  (fix blocksText (bs : list Block) : string :=
     match bs with
     | [] => ""
     | b :: bs' => text b +:+ newline +:+ blocksText bs'
     end) bs = blocksText bs.
Proof. induction bs as [|b bs IH]; [done|]. simpl. by rewrite IH. Qed.

Lemma blocksText_app (bs1 bs2 : list Block) :
  blocksText (bs1 ++ bs2) = blocksText bs1 +:+ blocksText bs2.
Proof.
  induction bs1 as [|b bs1 IH]; [done|]. simpl.
  by rewrite IH, !append_assoc.
Qed.

(** The test of [CheckFragment] on a text. *)
Lemma blocksText_hasContent (bs : list Block) (b : Block) :
  b ∈ bs → hasContent b = true →
  strings.Contains (blocksText bs) "TODO" || strings.ContainsAny (blocksText bs) ".?!" = true.
Proof.
  intros (bs1 & bs2 & ->)%list_elem_of_split. unfold hasContent.
  rewrite blocksText_app. simpl. rewrite !orb_true_iff.
  intros [Hc|Hc]; [left|right].
  - apply Contains_append. rewrite orb_true_iff. right.
    apply Contains_append. by rewrite Hc.
  - rewrite !ContainsAny_append, Hc. by rewrite orb_true_r.
Qed.
End text.

(** X6.  The text of a list, an item or a quote is the text of each child
    followed by a newline ([blocksText], which distributes over
    concatenation), so such a block passes the test of [CheckFragment] as
    soon as one of its children does. *)
Theorem text_of_containers `{Lib} (pos : Position) (bs : list Block) :
  text (List pos bs) = blocksText bs ∧
  text (Item pos bs) = blocksText bs ∧
  text (Quote pos bs) = blocksText bs ∧
  (∀ bs1 bs2, blocksText (bs1 ++ bs2) = blocksText bs1 +:+ blocksText bs2) ∧
  (∀ b, b ∈ bs → hasContent b = true →
        hasContent (List pos bs) = true ∧ hasContent (Item pos bs) = true ∧
        hasContent (Quote pos bs) = true).
Proof.
  split_and!; [apply text_blocksText..|apply blocksText_app|].
  intros b Hin Hb. unfold hasContent.
  change (text (List pos bs)) with (text (Item pos bs)).
  change (text (Quote pos bs)) with (text (Item pos bs)).
  assert (text (Item pos bs) = blocksText bs) as -> by apply text_blocksText.
  split_and!; by eapply blocksText_hasContent.
Qed.

(** ** More on [removeEmptySections] *)

Lemma sublist_reverse {A} (l k : list A) :
  l `sublist_of` k → reverse l `sublist_of` reverse k.
Proof.
  induction 1 as [|x l k _ IH|x l k _ IH]; [done|..]; rewrite ?reverse_cons.
  - by apply sublist_app.
  - by apply sublist_inserts_r.
Qed.

Lemma Forall2_suffix {A B} (R : A → B → Prop) (l l' : list A) (k : list B) :
  Forall2 R l k → l' `suffix_of` l →
  ∃ k', Forall2 R l' k' ∧ k' `sublist_of` k.
Proof.
  intros HR [p ->]. apply Forall2_app_inv_l in HR as (k1 & k2 & _ & Hk2 & ->).
  exists k2. split; [done|]. by apply sublist_inserts_l.
Qed.

Lemma fold_pruneStep_sublist (bs : list Block) (st : list Block * Z)
    (rpre rsub : list Block) :
  rsub `sublist_of` rpre → Forall2 movedUp st.1 rsub →
  ∃ rsub', rsub' `sublist_of` (reverse bs ++ rpre) ∧
           Forall2 movedUp (fold_left pruneStep bs st).1 rsub'.
Proof.
  revert st rpre rsub. induction bs as [|x bs IH]; intros st rpre rsub Hsub HR; simpl.
  { by exists rsub. }
  destruct (Forall2_suffix _ _ _ _ HR (popped_suffix st x)) as (k & Hk & Hksub).
  destruct (IH (pruneStep st x) (x :: rpre) (x :: k)) as (rsub' & Hsub' & HR').
  - constructor. by etrans.
  - rewrite pruneStep_popped. simpl. constructor; [by eexists|done].
  - exists rsub'. split; [|done]. by rewrite reverse_cons, <-app_assoc.
Qed.

Lemma removeEmptySections_sublist (bs : list Block) :
  ∃ sub, sub `sublist_of` bs ∧ Forall2 movedUp (removeEmptySections bs) sub.
Proof.
  destruct (fold_pruneStep_sublist bs ([], 0) [] []) as (rsub & Hsub & HR);
    [done|constructor|].
  rewrite app_nil_r in Hsub.
  destruct (Forall2_suffix _ _ _ _ HR
              (rem_suffix 1 (fold_left pruneStep bs ([], 0)).1
                            (fold_left pruneStep bs ([], 0)).2))
    as (k & Hk & Hksub).
  exists (reverse k). split.
  - rewrite <-(reverse_involutive bs). apply sublist_reverse. by etrans.
  - unfold removeEmptySections. by apply Forall2_reverse.
Qed.

Lemma removeEmptySections_Forall (P : Block → Prop) (bs : list Block) :
  (∀ b n, P b → P (addLines b n)) →
  Forall P bs → Forall P (removeEmptySections bs).
Proof.
  intros Hshift Hbs.
  destruct (removeEmptySections_sublist bs) as (sub & Hsub & HR).
  eapply Forall2_Forall_l; [done|].
  apply Forall_forall. intros b Hb o [d ->]. apply Hshift.
  rewrite Forall_forall in Hbs. by eapply Hbs, elem_of_sublist.
Qed.

Lemma removeEmptySections_settled (bs : list Block) :
  Sorted deeper (removeEmptySections bs) ∧
  ∀ b, last (removeEmptySections bs) = Some b → headingFrom 1 b = false.
Proof.
  rewrite removeEmptySections_finalStack. split.
  - apply (Sorted_reverse (flip deeper)), finalStack_deeper.
  - intros b. rewrite last_reverse. apply finalStack_head.
Qed.

Lemma rem_fst_delta (level : Z) (res : list Block) (delta delta' : Z) :
  (rem level res delta).1 = (rem level res delta').1.
Proof.
  revert delta delta'. induction res as [|b res IH]; intros delta delta'; simpl; [done|].
  destruct b; try done. case_match; [apply IH|done].
Qed.

Lemma rem_1_rem (level : Z) (res : list Block) (delta delta' : Z) :
  1 ≤ level →
  (rem 1 (rem level res delta).1 delta').1 = (rem 1 res delta).1.
Proof.
  intros Hlevel. revert delta delta'.
  induction res as [|b res IH]; intros delta delta'; simpl; [done|].
  destruct b as [pos lv t| | | | | | | |]; try done.
  destruct (Z.leb_spec level lv), (Z.leb_spec 1 lv); simpl; try lia.
  - apply IH.
  - destruct (Z.leb_spec 1 lv); [|lia]. apply rem_fst_delta.
  - destruct (Z.leb_spec 1 lv); [lia|done].
Qed.

(** X7.  What [removeEmptySections] returns has no empty section left: no
    heading of it is directly followed by a heading of the same or a smaller
    level, and it does not end in a heading of level 1 or more; with heading
    levels from 1 on, it does not end in a heading at all. *)
Theorem removeEmptySections_no_empty_section (bs : list Block) :
  Sorted deeper (removeEmptySections bs) ∧
  (∀ b, last (removeEmptySections bs) = Some b → headingFrom 1 b = false) ∧
  (levelsFrom1 bs → noEmptySections (removeEmptySections bs)).
Proof.
  destruct (removeEmptySections_settled bs) as [Hs Hlast].
  split_and!; [done..|]. intros Hlv. split; [done|].
  destruct (last (removeEmptySections bs)) as [b|] eqn:Hb; [|done].
  specialize (Hlast b eq_refl).
  assert (levelsFrom1 (removeEmptySections bs)) as Hlv'.
  { apply removeEmptySections_Forall; [|done].
    intros ??. by rewrite isHeading_addLines, headingFrom_addLines. }
  unfold levelsFrom1 in Hlv'. rewrite Forall_forall in Hlv'.
  destruct (isHeading b) eqn:Hh; [|done].
  rewrite (Hlv' b) in Hlast; [done| |done]. by eapply last_Some_elem_of.
Qed.

(** X8.  [removeEmptySections] returns a sequence as it is, positions
    included, exactly when no heading of it is directly followed by a heading
    of the same or a smaller level and it does not end in a heading of level 1
    or more. *)
Theorem removeEmptySections_fixed_iff (bs : list Block) :
  removeEmptySections bs = bs ↔
  Sorted deeper bs ∧ ∀ b, last bs = Some b → headingFrom 1 b = false.
Proof.
  split.
  - intros Heq. rewrite <-Heq. apply removeEmptySections_settled.
  - intros [Hs Hlast]. by apply removeEmptySections_fixed.
Qed.

(** X9.  [removeEmptySections] only removes blocks and moves the others up:
    its result is, block by block and in order, a subsequence of the input
    with line ranges moved, so it is never longer than the input and holds no
    new block. *)
Theorem removeEmptySections_subsequence (bs : list Block) :
  (∃ sub, sub `sublist_of` bs ∧ Forall2 movedUp (removeEmptySections bs) sub) ∧
  (length (removeEmptySections bs) ≤ length bs)%nat ∧
  (∀ o, o ∈ removeEmptySections bs → ∃ b, b ∈ bs ∧ movedUp o b).
Proof.
  destruct (removeEmptySections_sublist bs) as (sub & Hsub & HR).
  split_and!.
  - by exists sub.
  - rewrite (Forall2_length _ _ _ HR). by apply sublist_length.
  - intros o (i & Hi)%list_elem_of_lookup.
    destruct (Forall2_lookup_l _ _ _ _ _ HR Hi) as (b & Hb & Hob).
    exists b. split; [|done]. eapply elem_of_sublist; [|done].
    by eapply list_elem_of_lookup_2.
Qed.

(** X10.  A heading of level 1 or more at the very end is always removed:
    appending one to a sequence does not change what [removeEmptySections]
    returns. *)
Theorem removeEmptySections_trailing_heading (bs : list Block) (pos : Position)
    (level : Z) (t : Text) :
  1 ≤ level →
  removeEmptySections (bs ++ [Heading pos level t]) = removeEmptySections bs.
Proof.
  intros Hlevel. unfold removeEmptySections. rewrite fold_left_app. simpl.
  destruct (Z.leb_spec 1 level); [|lia]. f_equal.
  rewrite (rem_fst_delta 1 _ _ (fold_left pruneStep bs ([], 0)).2).
  by apply rem_1_rem.
Qed.

(** ** More on [Merge] *)

Section merge_more.
Context `{Lib}.

Lemma mergeFragment_inr (filename : string) (newdoc doc : Document) (prevPkg : string)
    (st' : MergeState) :
  mergeFragment filename newdoc (doc, prevPkg) = inr st' →
  (Blocks newdoc = [] ∧ st' = (doc, prevPkg)) ∨
  (Blocks newdoc ≠ [] ∧
   Links st'.1 = Links newdoc ∪ Links doc ∧
   (∀ key, is_Some (Links newdoc !! key) → Links doc !! key = None) ∧
   ∃ hs delta,
     Blocks st'.1 =
       Blocks doc ++ hs ++ nonEmptyBlocks (map (λ b, addLines b delta) (Blocks newdoc)) ∧
     (hs = [] ∨ ∃ pkg line, hs = [stdlibPackageHeading pkg line])).
Proof.
  destruct (head (Blocks newdoc)) as [first|] eqn:Hfirst; last first.
  { apply head_None in Hfirst. rewrite mergeFragment_skip by done. intros [= <-]. by left. }
  assert (Blocks newdoc ≠ []) as Hne by (intros Hnil; by rewrite Hnil in Hfirst).
  intros Hst. right. split; [done|].
  destruct (last (Blocks doc)) as [lb|] eqn:Hlast.
  - destruct (mergeFragment_next filename newdoc doc prevPkg lb first)
      as (lb' & _ & Heq); [done..|].
    rewrite Heq in Hst. apply withLinks_inr in Hst as [-> Hfresh]. simpl.
    split_and!; [done..|].
    eexists _, _. rewrite <-app_assoc. split; [done|].
    unfold packageHeading. case_match; eauto.
  - apply last_None in Hlast. rewrite mergeFragment_first in Hst by done.
    apply withLinks_inr in Hst as [-> Hfresh]. simpl. split_and!; [done..|].
    exists [], 0. rewrite Hlast. simpl. split; [|by left].
    f_equal. rewrite <-(map_id (Blocks newdoc)) at 1.
    apply map_ext. intros b. by rewrite addLines_0.
Qed.

Lemma mergeLoop_app (fsys : FS) (pre rest : list string) (st : MergeState) :
  mergeLoop fsys (pre ++ rest) st =
  match mergeLoop fsys pre st with
  | inl err => inl err
  | inr st' => mergeLoop fsys rest st'
  end.
Proof.
  revert st. induction pre as [|f pre IH]; intros st; simpl; [done|].
  destruct (parseFile fsys f); [done|].
  destruct (mergeFragment f d st); [done|]. apply IH.
Qed.

Lemma mergeLoop_skip (fsys : FS) (filenames : list string) (st : MergeState) :
  (∀ f, f ∈ filenames → ∃ data, readFile fsys f = inr data ∧ Blocks (Parse data) = []) →
  mergeLoop fsys filenames st = inr st.
Proof.
  intros Hskip. induction filenames as [|f filenames IH]; simpl; [done|].
  destruct (Hskip f) as (data & Hread & Hnil); [set_solver|].
  unfold parseFile. rewrite Hread, mergeFragment_skip by done.
  apply IH. intros f' Hf'. apply Hskip. set_solver.
Qed.

Lemma mergeLoop_inl (fsys : FS) (filenames : list string) (st : MergeState) (e : error) :
  mergeLoop fsys filenames st = inl e →
  (∃ f err, f ∈ filenames ∧ readFile fsys f = inl err ∧ e = ErrFS err) ∨
  (∃ key f, f ∈ filenames ∧ e = ErrDuplicateLink key f).
Proof.
  revert st. induction filenames as [|f filenames IH]; intros st; simpl; [done|].
  unfold parseFile. destruct (readFile fsys f) as [err|data] eqn:Hread.
  { intros [= <-]. left. exists f, err. split_and!; [set_solver|done..]. }
  destruct (mergeFragment f (Parse data) st) as [e'|st1] eqn:Hfrag.
  - intros [= <-]. apply mergeFragment_inl in Hfrag as (key & -> & _).
    right. exists key, f. split; [set_solver|done].
  - intros [(f' & err & ? & ? & ?)|(key & f' & ? & ?)]%IH; [left|right].
    + exists f', err. split_and!; [set_solver|done..].
    + exists key, f'. split; [set_solver|done].
Qed.

Lemma walkMarkdown_inl (es : list WalkEntry) (acc : list string) (e : error) :
  walkMarkdown es acc = inl e →
  ∃ en err, en ∈ es ∧ entryErr en = Some err ∧ e = ErrFS err.
Proof.
  revert acc. induction es as [|en es IH]; intros acc; simpl; [done|].
  destruct (entryErr en) as [err|] eqn:Hen.
  - intros [= <-]. exists en, err. split_and!; [set_solver|done..].
  - intros Hw. assert (∃ acc', walkMarkdown es acc' = inl e) as [acc' Hacc']
      by (case_match; eauto).
    apply IH in Hacc' as (en' & err & ? & ? & ?).
    exists en', err. split_and!; [set_solver|done..].
Qed.

Lemma walkMarkdown_first_error (pre post : list WalkEntry) (en : WalkEntry)
    (err : fsError) (acc : list string) :
  Forall (λ e, entryErr e = None) pre → entryErr en = Some err →
  walkMarkdown (pre ++ en :: post) acc = inl (ErrFS err).
Proof.
  intros Hpre Hen. revert acc. induction Hpre as [|e pre He _ IH]; intros acc; simpl.
  - by rewrite Hen.
  - rewrite He. case_match; apply IH.
Qed.

Lemma mergeLoop_links (fsys : FS) (filenames : list string) (st st' : MergeState)
    (key : string) (l : Link) :
  mergeLoop fsys filenames st = inr st' →
  Links st'.1 !! key = Some l ↔
  Links st.1 !! key = Some l ∨
  ∃ f data, f ∈ filenames ∧ readFile fsys f = inr data ∧
            Blocks (Parse data) ≠ [] ∧ Links (Parse data) !! key = Some l.
Proof.
  revert st. induction filenames as [|f filenames IH]; intros st; simpl.
  { intros [= <-]. split; [auto|]. intros [?|(? & ? & ?%elem_of_nil & _)]; done. }
  unfold parseFile. destruct (readFile fsys f) as [|data] eqn:Hread; [done|].
  destruct (mergeFragment f (Parse data) st) as [|st1] eqn:Hfrag; [done|].
  intros Hloop. rewrite (IH _ Hloop). destruct st as [doc prevPkg].
  apply mergeFragment_inr in Hfrag as [[Hnil ->]|(Hne & Hlinks & Hfresh & _)]; simpl.
  - split.
    + intros [?|(f' & d' & ? & ? & ? & ?)]; [by left|right].
      exists f', d'. split_and!; [set_solver|done..].
    + intros [?|(f' & d' & [->|?]%elem_of_cons & Hr & Hb & Hl)]; [by left| |].
      * congruence.
      * right. by exists f', d'.
  - rewrite Hlinks, lookup_union_Some_raw. split.
    + intros [[?|[_ ?]]|(f' & d' & ? & ? & ? & ?)].
      * right. exists f, data. split_and!; [set_solver|done..].
      * by left.
      * right. exists f', d'. split_and!; [set_solver|done..].
    + intros [Hl|(f' & d' & [->|?]%elem_of_cons & Hr & Hb & Hl)].
      * left. right. split; [|done].
        destruct (Links (Parse data) !! key) eqn:Hnew; [|done].
        rewrite Hfresh in Hl; [done|by eexists].
      * left. left. congruence.
      * right. by exists f', d'.
Qed.

Lemma mergeLoop_no_Empty (fsys : FS) (filenames : list string) (st st' : MergeState) :
  Forall (λ b, isEmpty b = false) (Blocks st.1) →
  mergeLoop fsys filenames st = inr st' →
  Forall (λ b, isEmpty b = false) (Blocks st'.1).
Proof.
  revert st. induction filenames as [|f filenames IH]; intros st Hst; simpl.
  { by intros [= <-]. }
  unfold parseFile. destruct (readFile fsys f) as [|data] eqn:Hread; [done|].
  destruct (mergeFragment f (Parse data) st) as [|st1] eqn:Hfrag; [done|].
  apply IH. destruct st as [doc prevPkg].
  apply mergeFragment_inr in Hfrag
    as [[_ ->]|(_ & _ & _ & hs & delta & -> & Hhs)]; [done|].
  rewrite !Forall_app. split_and!; [done| |].
  - by destruct Hhs as [->|(pkg & line & ->)]; repeat constructor.
  - unfold nonEmptyBlocks. apply Forall_forall. by intros b [? _]%list_elem_of_filter.
Qed.
End merge_more.

(** X11.  When no Markdown file of the tree parses to a block (in particular
    when the tree has no Markdown file), [Merge] returns the document with no
    block and no link: fragments without blocks are skipped before their
    links are looked at. *)
Theorem Merge_nothing_to_merge `{Lib} (fsys : FS) (names : list string) :
  walkMarkdown (walkEntries fsys) [] = inr names →
  (∀ f, f ∈ names → ∃ data, readFile fsys f = inr data ∧ Blocks (Parse data) = []) →
  Merge fsys = inr (mkDocument [] ∅).
Proof.
  intros Hwalk Hskip. unfold Merge, sortedMarkdownFilenames. rewrite Hwalk.
  rewrite mergeLoop_skip.
  - by rewrite finishMerge_eq.
  - intros f Hf. apply Hskip. by rewrite merge_sort_Permutation in Hf.
Qed.

(** X12.  [Merge] fails in three ways only: with the error the walk reported
    for an entry, with the error of reading one of the Markdown files, or
    with a duplicate link reference; the index expressions it guards never
    panic. *)
Theorem Merge_error_kinds `{Lib} (fsys : FS) (e : error) :
  Merge fsys = inl e →
  (∃ en err, en ∈ walkEntries fsys ∧ entryErr en = Some err ∧ e = ErrFS err) ∨
  (∃ f err, readFile fsys f = inl err ∧ e = ErrFS err) ∨
  (∃ key f, e = ErrDuplicateLink key f).
Proof.
  unfold Merge, sortedMarkdownFilenames.
  destruct (walkMarkdown (walkEntries fsys) []) as [e'|names] eqn:Hwalk.
  { intros [= <-]. left. by apply walkMarkdown_inl in Hwalk. }
  destruct (mergeLoop fsys (merge_sort String.le names) (mkDocument [] ∅, ""))
    as [e'|[doc p]] eqn:Hloop.
  - intros [= <-]. right.
    apply mergeLoop_inl in Hloop as [(f & err & _ & ? & ?)|(key & f & _ & ?)]; eauto.
  - by rewrite finishMerge_eq.
Qed.

(** X13.  The first failure wins.  An error of the walk at an entry, with no
    error at the entries before it, is what [Merge] returns, whatever the
    files hold.  Otherwise, when the files before [f] in merge order fold
    without error and [f] cannot be read, [Merge] returns the error of
    reading [f]. *)
Theorem Merge_first_failure `{Lib} (fsys : FS) :
  (∀ pre en post err,
     walkEntries fsys = pre ++ en :: post →
     Forall (λ e, entryErr e = None) pre → entryErr en = Some err →
     Merge fsys = inl (ErrFS err)) ∧
  (∀ pre f post st err,
     sortedMarkdownFilenames fsys = inr (pre ++ f :: post) →
     mergeLoop fsys pre (mkDocument [] ∅, "") = inr st →
     readFile fsys f = inl err →
     Merge fsys = inl (ErrFS err)).
Proof.
  split.
  - intros pre en post err Hes Hpre Hen. unfold Merge, sortedMarkdownFilenames.
    by rewrite Hes, (walkMarkdown_first_error pre post en err).
  - intros pre f post st err Hsorted Hpre Hread. unfold Merge.
    rewrite Hsorted, mergeLoop_app, Hpre. simpl. unfold parseFile. by rewrite Hread.
Qed.

(** X14.  When [Merge] succeeds, its link map holds exactly the link
    references of the fragments that have at least one block: a key is
    mapped to a link exactly when one of those fragments maps it so. *)
Theorem Merge_links `{Lib} (fsys : FS) (doc : Document) (names : list string) :
  Merge fsys = inr doc →
  sortedMarkdownFilenames fsys = inr names →
  ∀ key l,
    Links doc !! key = Some l ↔
    ∃ f data, f ∈ names ∧ readFile fsys f = inr data ∧
              Blocks (Parse data) ≠ [] ∧ Links (Parse data) !! key = Some l.
Proof.
  unfold Merge. intros Hmerge Hsorted key l. rewrite Hsorted in Hmerge.
  destruct (mergeLoop fsys names (mkDocument [] ∅, "")) as [|[acc p]] eqn:Hloop; [done|].
  rewrite finishMerge_eq in Hmerge. injection Hmerge as <-. simpl.
  rewrite (mergeLoop_links _ _ _ _ key l Hloop). simpl. rewrite lookup_empty.
  naive_solver.
Qed.

(** X15.  The blocks [Merge] returns are a body followed by the blank line
    before the links (present when body and link map are both non-empty).
    The body holds no [Empty] block, no heading of it is directly followed
    by a heading of the same or a smaller level, and it does not end in a
    heading of level 1 or more. *)
Theorem Merge_blocks_shape `{Lib} (fsys : FS) (doc : Document) :
  Merge fsys = inr doc →
  ∃ body,
    Blocks doc = body ++ trailingEmpty body (Links doc) ∧
    Forall (λ b, isEmpty b = false) body ∧
    Sorted deeper body ∧
    (∀ b, last body = Some b → headingFrom 1 b = false).
Proof.
  unfold Merge. destruct (sortedMarkdownFilenames fsys) as [|names]; [done|].
  destruct (mergeLoop fsys names (mkDocument [] ∅, "")) as [|[acc p]] eqn:Hloop; [done|].
  rewrite finishMerge_eq. intros [= <-]. simpl.
  exists (removeEmptySections (Blocks acc)).
  destruct (removeEmptySections_settled (Blocks acc)) as [Hs Hlast].
  split_and!; [done| |done..].
  apply removeEmptySections_Forall.
  - intros ??. by rewrite isEmpty_addLines.
  - apply (mergeLoop_no_Empty fsys names (mkDocument [] ∅, "") (acc, p)); [constructor|done].
Qed.

(** X16.  A fragment folded into an accumulator without blocks is taken as
    it is: its blocks other than [Empty] ones are appended unshifted, no
    package heading is put in front whatever the file name, and [prevPkg] is
    left alone.  So when the first fragment of a merge belongs to a package,
    the heading of that package comes before the blocks of the next file of
    the package, not before the first. *)
Theorem mergeFragment_first_file `{Lib} (filename : string) (newdoc doc : Document)
    (prevPkg : string) :
  Blocks doc = [] → Blocks newdoc ≠ [] →
  mergeFragment filename newdoc (doc, prevPkg) =
    match mergeLinks filename (Links doc) (rangeLinks (Links newdoc)) with
    | inl err => inl err
    | inr links => inr (mkDocument (nonEmptyBlocks (Blocks newdoc)) links, prevPkg)
    end ∧
  ∀ doc1 filename2 newdoc2 lb1 first2,
    mergeFragment filename newdoc (doc, "") = inr (doc1, "") →
    last (Blocks doc1) = Some lb1 → head (Blocks newdoc2) = Some first2 →
    stdlibPackage filename2 ≠ "" →
    ∃ delta,
      mergeFragment filename2 newdoc2 (doc1, "") =
        match mergeLinks filename2 (Links doc1) (rangeLinks (Links newdoc2)) with
        | inl err => inl err
        | inr links =>
            inr (mkDocument
                   (Blocks doc1 ++
                    [stdlibPackageHeading (stdlibPackage filename2) (EndLine (Pos lb1))] ++
                    nonEmptyBlocks (map (λ b, addLines b delta) (Blocks newdoc2)))
                   links,
                 stdlibPackage filename2)
        end.
Proof.
  intros Hdoc Hnew. split; [by apply mergeFragment_first|].
  intros doc1 filename2 newdoc2 lb1 first2 _ Hlast Hfirst Hpkg.
  destruct (mergeFragment_next filename2 newdoc2 doc1 "" lb1 first2)
    as (lb' & _ & ->); [done..|].
  eexists. unfold withLinks, packageHeading.
  destruct (String.eqb_spec (stdlibPackage filename2) "") as [|_]; [done|].
  simpl. by rewrite <-app_assoc.
Qed.

(** X17.  The order in which the links of a fragment are visited (Go leaves
    the order of a map iteration open) changes neither whether the fold
    fails nor, when it succeeds, the map it yields; only the key the error
    names can differ. *)
Theorem mergeLinks_order_independent (L1 L2 : Lib) (filename : string)
    (acc new : gmap string Link) :
  (∀ links, mergeLinks filename acc (@rangeLinks L1 new) = inr links ↔
            mergeLinks filename acc (@rangeLinks L2 new) = inr links) ∧
  ((∃ key, mergeLinks filename acc (@rangeLinks L1 new) = inl (ErrDuplicateLink key filename)) ↔
   (∃ key, mergeLinks filename acc (@rangeLinks L2 new) = inl (ErrDuplicateLink key filename))).
Proof.
  assert (∀ La Lb : Lib, ∀ links,
            mergeLinks filename acc (@rangeLinks La new) = inr links →
            mergeLinks filename acc (@rangeLinks Lb new) = inr links) as Hinr.
  { intros La Lb links [-> Hfresh]%mergeLinks_inr. by apply mergeLinks_ok. }
  assert (∀ La Lb : Lib,
            (∃ key, mergeLinks filename acc (@rangeLinks La new) =
                      inl (ErrDuplicateLink key filename)) →
            (∃ key, mergeLinks filename acc (@rangeLinks Lb new) =
                      inl (ErrDuplicateLink key filename))) as Hinl.
  { intros La Lb [key (key' & _ & Hacc & Hnew)%mergeLinks_err].
    destruct (@mergeLinks_dup Lb filename acc new key' Hacc Hnew) as [e He].
    destruct (mergeLinks_err _ _ _ _ He) as (key'' & -> & _). by exists key''. }
  split; [|split; apply Hinl]. intros links. split; apply Hinr.
Qed.

(** *** The further theorems at concrete inputs *)

Lemma CheckFragment_names_first_incomplete_witness :
  ∃ pre c body tail,
    Blocks (@Parse exLib "check") = pre ++ c :: body ++ tail ∧
    isHeading c = true ∧ "Title" = @text exLib c ∧
    (pre = [] ∨ ∃ h pre', pre = h :: pre' ∧ isHeading h = true ∧
                          @sectionsComplete exLib false pre') ∧
    Forall (λ b, isHeading b = false) body ∧ atSectionEnd tail ∧
    ¬ @contentAtEnd exLib false body.
Proof.
  apply (@CheckFragment_names_first_incomplete exLib "check" "Title"). reflexivity.
Defined.

Lemma removeEmptySections_trailing_heading_witness :
  removeEmptySections (exSections ++ [heading 6 6 2 "Empty"]) = removeEmptySections exSections.
Proof.
  apply (removeEmptySections_trailing_heading exSections (mkPosition 6 6) 2). lia.
Defined.

Lemma Merge_nothing_to_merge_witness :
  @Merge exLib (filesFS [("a.md", "nothing here"); ("notes.txt", "intro")]) =
    inr (mkDocument [] ∅).
Proof.
  apply (@Merge_nothing_to_merge exLib _ ["a.md"]); [reflexivity|].
  intros f ->%list_elem_of_singleton. by exists "nothing here".
Defined.

Lemma Merge_error_kinds_witness :
  (∃ en err, en ∈ walkEntries (filesFS [("a.md", "intro"); ("b.md", "intro")]) ∧
             entryErr en = Some err ∧ ErrDuplicateLink "go" "b.md" = ErrFS err) ∨
  (∃ f err, readFile (filesFS [("a.md", "intro"); ("b.md", "intro")]) f = inl err ∧
            ErrDuplicateLink "go" "b.md" = ErrFS err) ∨
  (∃ key f, ErrDuplicateLink "go" "b.md" = ErrDuplicateLink key f).
Proof.
  apply (@Merge_error_kinds exLib (filesFS [("a.md", "intro"); ("b.md", "intro")])).
  by vm_compute.
Defined.

Lemma Merge_first_failure_witness :
  @Merge exLib brokenFS = inl (ErrFS (mkFsError "permission denied")).
Proof.
  apply (proj1 (@Merge_first_failure exLib brokenFS)
           [mkWalkEntry "a.md" false None]
           (mkWalkEntry "private" true (Some (mkFsError "permission denied")))
           [mkWalkEntry "z.md" false None]); [reflexivity| |reflexivity].
  by repeat constructor.
Defined.

Lemma Merge_links_witness :
  ∃ doc, @Merge exLib (filesFS [("a.md", "intro"); ("b.md", "change")]) = inr doc ∧
         Links doc !! "go" = Some exLink.
Proof.
  assert (∃ doc, @Merge exLib (filesFS [("a.md", "intro"); ("b.md", "change")]) = inr doc)
    as [doc Hdoc] by (eexists; by vm_compute).
  exists doc. split; [done|].
  apply (@Merge_links exLib _ doc ["a.md"; "b.md"] Hdoc); [reflexivity|].
  exists "a.md", "intro". split_and!; [set_solver|reflexivity|done|reflexivity].
Defined.

Lemma Merge_blocks_shape_witness :
  ∃ doc body,
    @Merge exLib (filesFS [("a.md", "intro"); ("b.md", "change")]) = inr doc ∧
    Blocks doc = body ++ trailingEmpty body (Links doc) ∧
    Forall (λ b, isEmpty b = false) body.
Proof.
  assert (∃ doc, @Merge exLib (filesFS [("a.md", "intro"); ("b.md", "change")]) = inr doc)
    as [doc Hdoc] by (eexists; by vm_compute).
  destruct (@Merge_blocks_shape exLib _ doc Hdoc) as (body & Hshape & Hne & _).
  by exists doc, body.
Defined.

Lemma mergeFragment_first_file_witness :
  @mergeFragment exLib "6-stdlib/99-minor/net/http/1.md" exIntro (mkDocument [] ∅, "") =
    inr (exIntro, "").
Proof.
  rewrite (proj1 (@mergeFragment_first_file exLib "6-stdlib/99-minor/net/http/1.md"
                    exIntro (mkDocument [] ∅) "" eq_refl ltac:(done))).
  by vm_compute.
Defined.

(** ** The files [Merge] folds *)

Section folded_files.
Context `{Lib}.

Lemma mergeLoop_spaced_names (fsys : FS) (filenames : list string) (st st' : MergeState) :
  (∀ f data, f ∈ filenames → readFile fsys f = inr data → orderedFragment (Parse data)) →
  spaced (Blocks st.1) →
  mergeLoop fsys filenames st = inr st' →
  spaced (Blocks st'.1).
Proof.
  revert st. induction filenames as [|filename rest IH]; intros st Hfs Hst; simpl.
  - by intros [= <-].
  - unfold parseFile. destruct (readFile fsys filename) as [|data] eqn:Hread; [done|].
    destruct (mergeFragment filename (Parse data) st) as [|st1] eqn:Hfrag; [done|].
    apply IH.
    + intros f d Hf. apply Hfs. by right.
    + eapply mergeFragment_spaced; [done| |done]. eapply Hfs; [by left|done].
Qed.

Lemma map_addLines_0 (bs : list Block) : map (λ b, addLines b 0) bs = bs.
Proof.
  rewrite <-(map_id bs) at 2. apply map_ext. intros b. apply addLines_0.
Qed.

Lemma mergeFragment_adds (filename : string) (newdoc doc : Document) (prevPkg : string)
    (st' : MergeState) :
  mergeFragment filename newdoc (doc, prevPkg) = inr st' →
  ∃ added,
    Blocks st'.1 = Blocks doc ++ added ∧
    ((Blocks newdoc = [] ∧ added = []) ∨
     (Blocks newdoc ≠ [] ∧
      ∃ hs delta,
        added = hs ++ map (λ b, addLines b delta) (nonEmptyBlocks (Blocks newdoc)) ∧
        (hs = [] ∨
         ∃ line, stdlibPackage filename ≠ "" ∧
                 hs = [stdlibPackageHeading (stdlibPackage filename) line]))).
Proof.
  destruct (head (Blocks newdoc)) as [first|] eqn:Hfirst; last first.
  { apply head_None in Hfirst. rewrite mergeFragment_skip by done. intros [= <-].
    exists []. rewrite app_nil_r. auto. }
  assert (Blocks newdoc ≠ []) as Hne by (intros Hnil; by rewrite Hnil in Hfirst).
  intros Hst. destruct (last (Blocks doc)) as [lb|] eqn:Hlast.
  - destruct (mergeFragment_next filename newdoc doc prevPkg lb first)
      as (lb' & _ & Heq); [done..|].
    rewrite Heq in Hst. apply withLinks_inr in Hst as [-> _]. simpl.
    eexists. rewrite <-app_assoc. split; [done|]. right. split; [done|].
    eexists _, _. rewrite nonEmptyBlocks_addLines. split; [done|].
    unfold packageHeading.
    destruct (String.eqb_spec (stdlibPackage filename) "") as [|Hpkg]; simpl; [by left|].
    case_match; [right|by left]. by eexists.
  - apply last_None in Hlast. rewrite mergeFragment_first in Hst by done.
    apply withLinks_inr in Hst as [-> _]. simpl. rewrite Hlast.
    eexists. split; [done|]. right. split; [done|].
    exists [], 0. simpl. rewrite map_addLines_0. auto.
Qed.

Lemma mergeLoop_contributions (fsys : FS) (filenames : list string) (st st' : MergeState) :
  mergeLoop fsys filenames st = inr st' →
  ∃ contribs,
    Forall2 (contribution fsys) filenames contribs ∧
    Blocks st'.1 = Blocks st.1 ++ concat contribs.
Proof.
  revert st. induction filenames as [|f filenames IH]; intros st; simpl.
  { intros [= <-]. exists []. by rewrite app_nil_r. }
  unfold parseFile. destruct (readFile fsys f) as [|data] eqn:Hread; [done|].
  destruct (mergeFragment f (Parse data) st) as [|st1] eqn:Hfrag; [done|].
  intros (contribs & Hall & Heq)%IH. destruct st as [doc prevPkg].
  apply mergeFragment_adds in Hfrag as (added & Hadded & Hshape).
  exists (added :: contribs). split.
  - constructor; [|done]. by exists data.
  - rewrite Heq, Hadded. simpl. by rewrite <-app_assoc.
Qed.

Lemma mergeLoop_unreadable (fsys : FS) (filenames : list string) (st : MergeState)
    (f : string) (err : fsError) :
  f ∈ filenames → readFile fsys f = inl err →
  ∃ e, mergeLoop fsys filenames st = inl e.
Proof.
  intros Hf Hread. revert st.
  induction filenames as [|f' filenames IH]; intros st; [by apply elem_of_nil in Hf|].
  simpl. unfold parseFile.
  destruct (readFile fsys f') as [|data] eqn:Hread'; [by eexists|].
  destruct (mergeFragment f' (Parse data) st) as [|st1]; [by eexists|].
  apply IH. apply elem_of_cons in Hf as [->|Hf]; [congruence|done].
Qed.
End folded_files.

Lemma isMarkdownFile_iff (e : WalkEntry) :
  isMarkdownFile e ↔ entryIsDir e = false ∧ ∃ x, entryPath e = x +:+ ".md".
Proof. unfold isMarkdownFile. by rewrite HasSuffix_iff. Qed.

(** C1, as the code has it.  [removeEmptySections] keeps a sequence ordered
    when its neighbouring blocks satisfy [a.EndLine ≤ b.StartLine] and every
    heading directly followed by a heading leaves a blank line in between
    ([a.EndLine + 2 ≤ b.StartLine]): the result satisfies both again.  When
    the kept blocks of every fragment that [Merge] folds (the Markdown files
    of the tree; what other files hold does not matter) are so ordered and do
    not start before the fragment's first block, the blocks of the document
    that [Merge] returns, up to the blank line appended before the links,
    satisfy [a.EndLine ≤ b.StartLine]. *)
Theorem positions_monotone `{Lib} :
  (∀ bs : list Block,
     spaced bs →
     spaced (removeEmptySections bs) ∧ monotone (removeEmptySections bs)) ∧
  (∀ (fsys : FS) (names : list string) (doc : Document),
     sortedMarkdownFilenames fsys = inr names →
     (∀ f data, f ∈ names → readFile fsys f = inr data → orderedFragment (Parse data)) →
     Merge fsys = inr doc →
     ∃ body : list Block,
       monotone body ∧
       (Blocks doc = body ∨ ∃ pos, Blocks doc = body ++ [Empty pos])).
Proof.
  split.
  - intros bs Hbs. split; [|apply spaced_monotone]; by apply removeEmptySections_spaced.
  - intros fsys names doc Hnames Hfs. unfold Merge. rewrite Hnames.
    destruct (mergeLoop fsys names (mkDocument [] ∅, "")) as [|[acc p]] eqn:Hloop; [done|].
    rewrite finishMerge_eq. intros [= <-]. simpl.
    exists (removeEmptySections (Blocks acc)). split.
    + apply spaced_monotone, removeEmptySections_spaced.
      apply (mergeLoop_spaced_names _ _ _ _ Hfs) in Hloop; [done|]. constructor.
    + unfold trailingEmpty. repeat case_match; eauto using app_nil_r.
Qed.

(** C9.  When the walk meets no error, [sortedMarkdownFilenames] returns
    exactly the paths of the entries that are not directories and whose path
    is some [x ++ ".md"], each as often as the walk visits it, arranged
    ascending in the bytewise order of strings (the one such arrangement).
    [Merge] folds exactly these files in the order of that list: the blocks
    it prunes are the concatenation, along the list, of what each file adds
    (its shifted blocks other than [Empty] ones, behind the heading of its
    package or not), and it fails when one of the files cannot be read.  In
    the order of strings [p ++ ".md"] comes before every [p ++ "/" ++ s],
    and the files a/one.md, a.md, b.md come out as a.md, a/one.md, b.md. *)
Theorem sortedMarkdownFilenames_order :
  (∀ fsys : FS,
     Forall (λ e, entryErr e = None) (walkEntries fsys) →
     ∃ names : list string,
       sortedMarkdownFilenames fsys = inr names ∧
       names ≡ₚ entryPath <$> filter isMarkdownFile (walkEntries fsys) ∧
       (∀ e, isMarkdownFile e ↔ entryIsDir e = false ∧ ∃ x, entryPath e = x +:+ ".md") ∧
       (∀ p, p ∈ names ↔
             ∃ e x, e ∈ walkEntries fsys ∧ entryPath e = p ∧ entryIsDir e = false ∧
                    p = x +:+ ".md") ∧
       Sorted String.le names ∧
       (∀ l, l ≡ₚ names → Sorted String.le l → l = names) ∧
       ∀ (L : Lib),
         (∀ doc, Merge fsys = inr doc →
            ∃ contribs,
              Forall2 (contribution fsys) names contribs ∧
              Blocks doc =
                removeEmptySections (concat contribs) ++
                trailingEmpty (removeEmptySections (concat contribs)) (Links doc)) ∧
         (∀ f err, f ∈ names → readFile fsys f = inl err → ∃ e, Merge fsys = inl e)) ∧
  (∀ p s : string, String.compare (p +:+ ".md") (p +:+ "/" +:+ s) = Lt) ∧
  (∀ d1 d2 d3 : string,
     sortedMarkdownFilenames (filesFS [("a/one.md", d1); ("a.md", d2); ("b.md", d3)]) =
       inr ["a.md"; "a/one.md"; "b.md"]).
Proof.
  split_and!.
  - intros fsys Hok.
    assert (sortedMarkdownFilenames fsys =
            inr (merge_sort String.le (entryPath <$> filter isMarkdownFile (walkEntries fsys))))
      as Hnames.
    { unfold sortedMarkdownFilenames. by rewrite walkMarkdown_ok by done. }
    eexists. split; [exact Hnames|]. split_and!.
    + apply merge_sort_Permutation.
    + apply isMarkdownFile_iff.
    + intros p. rewrite merge_sort_Permutation, list_elem_of_fmap. split.
      * intros (e & -> & [[Hdir [x Hx]]%isMarkdownFile_iff He]%list_elem_of_filter).
        by exists e, x.
      * intros (e & x & He & <- & Hdir & Hx). exists e. split; [done|].
        apply list_elem_of_filter. split; [|done]. apply isMarkdownFile_iff. eauto.
    + apply (Sorted_merge_sort String.le).
    + intros l Hperm Hsorted.
      apply (Sorted_unique String.le); [done| |done].
      apply (Sorted_merge_sort String.le).
    + intros L. unfold Merge. rewrite Hnames. split.
      * intros doc.
        destruct (mergeLoop fsys _ (mkDocument [] ∅, "")) as [|[acc p]] eqn:Hloop; [done|].
        rewrite finishMerge_eq. intros [= <-]. simpl.
        apply mergeLoop_contributions in Hloop as (contribs & Hall & Hblocks).
        exists contribs. split; [done|]. simpl in Hblocks. by rewrite Hblocks.
      * intros f err Hf Hread.
        destruct (mergeLoop_unreadable fsys _ (mkDocument [] ∅, "") f err Hf Hread)
          as [e He].
        exists e. by rewrite He.
  - intros p s. by rewrite compare_common_prefix.
  - done.
Qed.

Lemma positions_monotone_witness :
  spaced exSections ∧ monotone (removeEmptySections exSections) ∧
  readFile exTree "notes.txt" = inr "notes" ∧
  ¬ orderedFragment (@Parse exLibNotes "notes") ∧
  ∃ doc body, @Merge exLibNotes exTree = inr doc ∧
              monotone body ∧
              (Blocks doc = body ∨ ∃ pos, Blocks doc = body ++ [Empty pos]).
Proof.
  assert (spaced exSections) as Hs by by_computation.
  split; [done|]. split; [|split; [reflexivity|split]].
  - apply (proj1 (@positions_monotone exLibNotes) exSections Hs).
  - intros [Hnotes _]. revert Hnotes. apply (bool_decide_eq_false_1 (spaced _)).
    vm_compute. reflexivity.
  - assert (∃ doc, @Merge exLibNotes exTree = inr doc) as [doc Hdoc]
      by (eexists; vm_compute; reflexivity).
    destruct (proj2 (@positions_monotone exLibNotes) exTree ["a.md"; "z.md"] doc eq_refl)
      as (body & Hbody & Hshape); [|exact Hdoc|by exists doc, body].
    intros f data Hf Hread.
    assert (data = "intro" ∨ data = "change") as [-> | ->].
    { apply elem_of_cons in Hf as [->|Hf]; [left|right].
      - vm_compute in Hread. congruence.
      - apply list_elem_of_singleton in Hf as ->. vm_compute in Hread. congruence. }
    + split; [by_computation|]. intros first b Hfirst Hb.
      vm_compute in Hfirst, Hb. injection Hfirst as <-. injection Hb as <-. simpl. lia.
    + split; [by_computation|]. intros first b Hfirst Hb.
      vm_compute in Hfirst, Hb. injection Hfirst as <-. injection Hb as <-. simpl. lia.
Defined.

Lemma sortedMarkdownFilenames_order_witness :
  ∃ names,
    sortedMarkdownFilenames exTree = inr names ∧ Sorted String.le names ∧
    "a.md" ∈ names ∧ "z.md" ∈ names ∧
    ("notes.txt" ∉ names) ∧ ("README" ∉ names) ∧ ("docs.md" ∉ names) ∧
    ∃ doc contribs,
      @Merge exLibNotes exTree = inr doc ∧
      Forall2 (@contribution exLibNotes exTree) names contribs ∧
      Blocks doc =
        removeEmptySections (concat contribs) ++
        trailingEmpty (removeEmptySections (concat contribs)) (Links doc).
Proof.
  destruct (proj1 sortedMarkdownFilenames_order exTree)
    as (names & Heq & _ & _ & Hmem & Hsorted & _ & Hmerge).
  { by repeat constructor. }
  exists names. split_and!; [done..| | | | | |].
  - apply Hmem. exists (mkWalkEntry "a.md" false None), "a". split_and!; [set_solver|done..].
  - apply Hmem. exists (mkWalkEntry "z.md" false None), "z". split_and!; [set_solver|done..].
  - intros (e & x & _ & _ & _ & Hx)%Hmem.
    assert (strings.HasSuffix "notes.txt" ".md" = true) as Hsuffix
      by (apply HasSuffix_iff; by exists x).
    vm_compute in Hsuffix. discriminate.
  - intros (e & x & _ & _ & _ & Hx)%Hmem.
    assert (strings.HasSuffix "README" ".md" = true) as Hsuffix
      by (apply HasSuffix_iff; by exists x).
    vm_compute in Hsuffix. discriminate.
  - intros (e & x & He & Hpath & Hdir & _)%Hmem.
    simpl in He. repeat (apply elem_of_cons in He as [->|He]); try discriminate.
    by apply elem_of_nil in He.
  - assert (∃ doc, @Merge exLibNotes exTree = inr doc) as [doc Hdoc]
      by (eexists; vm_compute; reflexivity).
    destruct (proj1 (Hmerge exLibNotes) doc Hdoc) as (contribs & Hall & Hblocks).
    by exists doc, contribs.
Defined.
